(** * idgen: 128-bit identifiers made of a timestamp and a hash

    Shallow embedding of [idgen.go] (package [idgen]) and the properties
    of its identifier layout, its timestamp codec, its comparator, its
    hardware address lookup and its batch coordinator.

    Conventions.
    - A Go [[]byte] is a [list byte]; [nil] and the empty slice are both [[]].
    - Go's fixed-width integers are [Z] with the wrap-around written out
      ([to_uint64], [to_int64]).
    - A Go call either returns or panics: [outcome].  A Go [error] result
      is an [option error], [None] being Go's [nil].
    - The packages the file imports ([encoding/binary], [bytes], [io],
      [net], [runtime], [time], [sort], [xxhash]) are modelled as far as
      [idgen.go] uses them, from their documented behaviour. *)

From Stdlib Require Import ZArith Lia Strings.Byte Strings.String.
From stdpp Require Import base list sorting.

Local Open Scope Z_scope.

(** ** Machine integers *)

Module Int.

Definition two64 : Z := 2 ^ 64.
Definition two63 : Z := 2 ^ 63.

(** [uint64(v)]: the low 64 bits. *)
Definition to_uint64 (v : Z) : Z := Z.land v (two64 - 1).

(** [int64(v)]: the low 64 bits, read in two's complement. *)
Definition to_int64 (v : Z) : Z :=
  let u := to_uint64 v in if u <? two63 then u else u - two64.

Definition is_int64 (v : Z) : Prop := - two63 <= v < two63.
Definition is_uint64 (v : Z) : Prop := 0 <= v < two64.

(** [byte(v)]: the low 8 bits of an integer, as a byte. *)
Definition byte_of_Z (v : Z) : byte :=
  match Byte.of_N (Z.to_N (Z.land v 255)) with
  | Some b => b
  | None => x00
  end.

Definition Z_of_byte (b : byte) : Z := Z.of_N (Byte.to_N b).

(** The unsigned integer whose little-endian bytes are [b]. *)
Fixpoint le_uint (b : list byte) : Z :=
  match b with
  | nil => 0
  | cons x b' => Z_of_byte x + 256 * le_uint b'
  end.

End Int.

Import Int.

#[global] Arguments byte_of_Z : simpl never.
#[global] Arguments Z_of_byte : simpl never.
#[global] Arguments to_uint64 : simpl never.
#[global] Arguments to_int64 : simpl never.

(** ** Calls that may panic *)

Inductive panic : Type :=
| IndexOutOfRange (index : Z) (len : nat)
| MakechanSizeOutOfRange.

Inductive outcome (A : Type) : Type :=
| Returns (a : A)
| Panics (p : panic).

Arguments Returns {A} a.
Arguments Panics {A} p.

Definition bind {A B : Type} (c : outcome A) (k : A -> outcome B) : outcome B :=
  match c with
  | Returns a => k a
  | Panics p => Panics p
  end.

Notation "'do' x <- c ; k" := (bind c (fun x => k))
  (at level 10, x name, c at level 100, k at level 200).

(** [s[i]] on a slice, with Go's bounds check ([i] is a Go [int]). *)
Definition index {A : Type} (s : list A) (i : Z) : outcome A :=
  if i <? 0 then Panics (IndexOutOfRange i (length s))
  else match s !! Z.to_nat i with
       | Some x => Returns x
       | None => Panics (IndexOutOfRange i (length s))
       end.

(** [s[i] = x] on a slice, with Go's bounds check. *)
Definition assign {A : Type} (s : list A) (i : Z) (x : A) : outcome (list A) :=
  if i <? 0 then Panics (IndexOutOfRange i (length s))
  else if (Z.to_nat i <? length s)%nat then Returns (<[Z.to_nat i := x]> s)
  else Panics (IndexOutOfRange i (length s)).

(** ** Errors *)

Inductive error : Type :=
| EOF                                  (* io.EOF *)
| ErrUnexpectedEOF                     (* io.ErrUnexpectedEOF *)
| ErrShortBuffer                       (* io.ErrShortBuffer *)
| ErrNotFixedSize (type : string)      (* binary.Write: value without a fixed size *)
| ErrSyscall (msg : string)            (* whatever net.Interfaces reports *)
| Errorf (msg : string).               (* fmt.Errorf *)

(** ** package bytes *)

Module Buffer.

(** A [bytes.Buffer] that is only written to: its unread contents. *)
Definition t : Type := list byte.

Definition NewBuffer (buf : list byte) : t := buf.
Definition new : t := [].
Definition Reset (b : t) : t := [].
Definition Write (b : t) (p : list byte) : t * option error := (b ++ p, None).
Definition Bytes (b : t) : list byte := b.

End Buffer.

Module Reader.

(** A [bytes.Reader]: the slice and the read position. *)
Record t : Type := mk { s : list byte; i : nat }.

Definition NewReader (b : list byte) : t := {| s := b; i := 0 |}.

(** [r.Read(b)] with [len(b) = n]: the bytes copied into [b]. *)
Definition Read (r : t) (n : nat) : t * list byte * option error :=
  if (length (s r) <=? i r)%nat then (r, [], Some EOF)
  else
    let copied := take n (drop (i r) (s r)) in
    ({| s := s r; i := (i r + length copied)%nat |}, copied, None).

End Reader.

(** ** package io *)

Module io.

Definition no_error (e : option error) : bool :=
  match e with None => true | Some _ => false end.

(** The loop of [io.ReadAtLeast]; [got] is the part of [buf] filled so far.
    Every turn either reads a byte or ends the loop, so [min] turns are
    enough. *)
Fixpoint ReadAtLeast_loop (fuel : nat) (r : Reader.t) (got : list byte)
    (len min : nat) (err : option error) : Reader.t * list byte * option error :=
  match fuel with
  | O => (r, got, err)
  | S fuel' =>
      if (length got <? min)%nat && no_error err then
        let '(r', bs, err') := Reader.Read r (len - length got) in
        ReadAtLeast_loop fuel' r' (got ++ bs) len min err'
      else (r, got, err)
  end.

Definition ReadAtLeast (r : Reader.t) (len min : nat)
    : Reader.t * list byte * option error :=
  if (len <? min)%nat then (r, [], Some ErrShortBuffer)
  else
    let '(r', got, err) := ReadAtLeast_loop (S min) r [] len min None in
    let err' :=
      if (min <=? length got)%nat then None
      else match got, err with
           | _ :: _, Some EOF => Some ErrUnexpectedEOF
           | _, _ => err
           end in
    (r', got, err').

Definition ReadFull (r : Reader.t) (len : nat) : Reader.t * list byte * option error :=
  ReadAtLeast r len len.

End io.

(** ** package encoding/binary *)

Module binary.

(** [binary.LittleEndian.PutUint64] into a fresh 8-byte slice. *)
Definition PutUint64 (v : Z) : list byte :=
  [ byte_of_Z v; byte_of_Z (Z.shiftr v 8); byte_of_Z (Z.shiftr v 16);
    byte_of_Z (Z.shiftr v 24); byte_of_Z (Z.shiftr v 32); byte_of_Z (Z.shiftr v 40);
    byte_of_Z (Z.shiftr v 48); byte_of_Z (Z.shiftr v 56) ].

(** [binary.LittleEndian.Uint64]: needs [b[7]]. *)
Definition Uint64 (b : list byte) : outcome Z :=
  do b7 <- index b 7;
  do b0 <- index b 0; do b1 <- index b 1; do b2 <- index b 2; do b3 <- index b 3;
  do b4 <- index b 4; do b5 <- index b 5; do b6 <- index b 6;
  Returns
    (Z.lor (Z.lor (Z.lor (Z.lor (Z.lor (Z.lor (Z.lor
      (Z_of_byte b0)
      (Z.shiftl (Z_of_byte b1) 8)) (Z.shiftl (Z_of_byte b2) 16))
      (Z.shiftl (Z_of_byte b3) 24)) (Z.shiftl (Z_of_byte b4) 32))
      (Z.shiftl (Z_of_byte b5) 40)) (Z.shiftl (Z_of_byte b6) 48))
      (Z.shiftl (Z_of_byte b7) 56)).

(** The values [idgen.go] hands to [binary.Write], by their Go type. *)
Inductive data : Type :=
| int64 (v : Z)                       (* timestamp *)
| uint64 (v : Z)                      (* hash.Sum64() *)
| HardwareAddr (a : list byte)        (* net.HardwareAddr, a named []byte *)
| int (v : Z).                        (* routineID, platform width *)

(** [intDataSize]: the fast path knows the fixed-width integers only; a
    named slice type and [int] are not among its cases. *)
Definition intDataSize (d : data) : Z :=
  match d with
  | int64 _ | uint64 _ => 8
  | HardwareAddr _ | int _ => 0
  end.

(** [dataSize], by reflection: a slice of a fixed-size element has a size;
    kind [Int] has none. *)
Definition dataSize (d : data) : Z :=
  match d with
  | int64 _ | uint64 _ => 8
  | HardwareAddr a => 1 * Z.of_nat (length a)
  | int _ => -1
  end.

Definition type_name (d : data) : string :=
  match d with
  | int64 _ => "int64" | uint64 _ => "uint64"
  | HardwareAddr _ => "net.HardwareAddr" | int _ => "int"
  end.

(** The bytes [binary.Write] encodes for a value that has a size. *)
Definition encode (d : data) : list byte :=
  match d with
  | int64 v => PutUint64 (to_uint64 v)
  | uint64 v => PutUint64 (to_uint64 v)
  | HardwareAddr a => a
  | int _ => []
  end.

(** [binary.Write(w, binary.LittleEndian, d)]. *)
Definition Write (w : Buffer.t) (d : data) : Buffer.t * option error :=
  if negb (intDataSize d =? 0) then Buffer.Write w (encode d)
  else if dataSize d <? 0 then (w, Some (ErrNotFixedSize (type_name d)))
  else Buffer.Write w (encode d).

(** [binary.Read(r, binary.LittleEndian, &result)] for [result] an [int64]
    holding [old]: the value of [result] afterwards, and the error. *)
Definition Read_int64 (r : Reader.t) (old : Z) : outcome (Reader.t * Z * option error) :=
  let '(r', bs, err) := io.ReadFull r 8 in
  match err with
  | Some e => Returns (r', old, Some e)
  | None => do u <- Uint64 bs; Returns (r', to_int64 u, None)
  end.

End binary.

(** ** package xxhash (XXH64, seed 0) *)

Module xxhash.

Definition prime64_1 : Z := 11400714785074694791.
Definition prime64_2 : Z := 14029467366897019727.
Definition prime64_3 : Z := 1609587929392839161.
Definition prime64_4 : Z := 9650029242287828579.
Definition prime64_5 : Z := 2870177450012600261.

Definition rotl64 (x r : Z) : Z :=
  to_uint64 (Z.lor (Z.shiftl x r) (Z.shiftr x (64 - r))).

Definition round64 (acc input : Z) : Z :=
  to_uint64 (rotl64 (to_uint64 (acc + input * prime64_2)) 31 * prime64_1).

Definition mergeRound64 (acc val : Z) : Z :=
  to_uint64 (Z.lxor acc (round64 0 val) * prime64_1 + prime64_4).

(** The four lanes over the 32-byte stripes of the input. *)
Fixpoint stripes (fuel : nat) (v : Z * Z * Z * Z) (p : list byte)
    : Z * Z * Z * Z * list byte :=
  match fuel with
  | O => (v, p)
  | S fuel' =>
      if (32 <=? length p)%nat then
        let '(v1, v2, v3, v4) := v in
        stripes fuel'
          (round64 v1 (le_uint (take 8 p)),
           round64 v2 (le_uint (take 8 (drop 8 p))),
           round64 v3 (le_uint (take 8 (drop 16 p))),
           round64 v4 (le_uint (take 8 (drop 24 p))))
          (drop 32 p)
      else (v, p)
  end.

(** The tail: 8-byte words, then one 4-byte word, then single bytes. *)
Fixpoint tail8 (fuel : nat) (h : Z) (p : list byte) : Z * list byte :=
  match fuel with
  | O => (h, p)
  | S fuel' =>
      if (8 <=? length p)%nat then
        let h1 := Z.lxor h (round64 0 (le_uint (take 8 p))) in
        tail8 fuel' (to_uint64 (rotl64 h1 27 * prime64_1 + prime64_4)) (drop 8 p)
      else (h, p)
  end.

Definition tail4 (h : Z) (p : list byte) : Z * list byte :=
  if (4 <=? length p)%nat then
    let h1 := Z.lxor h (to_uint64 (le_uint (take 4 p) * prime64_1)) in
    (to_uint64 (rotl64 h1 23 * prime64_2 + prime64_3), drop 4 p)
  else (h, p).

Fixpoint tail1 (h : Z) (p : list byte) : Z :=
  match p with
  | [] => h
  | x :: p' =>
      let h1 := Z.lxor h (to_uint64 (Z_of_byte x * prime64_5)) in
      tail1 (to_uint64 (rotl64 h1 11 * prime64_1)) p'
  end.

Definition avalanche (h : Z) : Z :=
  let h1 := to_uint64 (Z.lxor h (Z.shiftr h 33) * prime64_2) in
  let h2 := to_uint64 (Z.lxor h1 (Z.shiftr h1 29) * prime64_3) in
  Z.lxor h2 (Z.shiftr h2 32).

Definition Checksum64 (input : list byte) : Z :=
  let n := length input in
  let '(h0, rest) :=
    if (32 <=? n)%nat then
      let '(v1, v2, v3, v4, rest) :=
        stripes (n / 32)
          (to_uint64 (prime64_1 + prime64_2), prime64_2, 0, to_uint64 (- prime64_1))
          input in
      let h := to_uint64 (rotl64 v1 1 + rotl64 v2 7 + rotl64 v3 12 + rotl64 v4 18) in
      (mergeRound64 (mergeRound64 (mergeRound64 (mergeRound64 h v1) v2) v3) v4, rest)
    else (prime64_5, input) in
  let h1 := to_uint64 (h0 + Z.of_nat n) in
  let '(h2, rest2) := tail8 (length rest / 8) h1 rest in
  let '(h3, rest3) := tail4 h2 rest2 in
  avalanche (tail1 h3 rest3).

(** The streaming digest [*xxhash.XXHash64]: what has been written since
    the last [Reset]. *)
Record XXHash64 : Type := mk { written : list byte }.

Definition New64 : XXHash64 := {| written := [] |}.
Definition Reset (h : XXHash64) : XXHash64 := {| written := [] |}.
Definition Write (h : XXHash64) (p : list byte) : XXHash64 :=
  {| written := written h ++ p |}.
Definition Sum64 (h : XXHash64) : Z := Checksum64 (written h).

End xxhash.

(** ** packages time, net and runtime, as seen by idgen *)

Module time.

(** [time.Now().UnixNano()] when the wall clock stands at [now] nanoseconds
    since the epoch: an [int64]. *)
Definition UnixNano (now : Z) : Z := to_int64 now.

End time.

Module net.

Record Interface : Type := mkInterface {
  Index : Z;
  MTU : Z;
  Name : string;
  HardwareAddr : list byte;
  Flags : Z
}.

Definition FlagUp : Z := 1.
Definition FlagBroadcast : Z := 2.
Definition FlagLoopback : Z := 4.

Definition is_loopback (ifi : Interface) : bool :=
  negb (Z.land (Flags ifi) FlagLoopback =? 0).

End net.

(** ** package idgen *)

(** *** GetMACAddress *)

Definition no_interface_message : string :=
  "Could not find a MAC address to use in unique IDs No suitable interface on this machine.".

(** The [for _, iface := range ifaces] loop: [Some] is a [return] from
    inside the loop, [None] is falling out of it. *)
Fixpoint GetMACAddress_range (ifaces : list net.Interface)
    : option (list byte * option error) :=
  match ifaces with
  | [] => None
  | iface :: rest =>
      if negb (String.eqb (net.Name iface) "lo")
      then Some (net.HardwareAddr iface, None)
      else GetMACAddress_range rest
  end.

(** [GetMACAddress], given what [net.Interfaces()] returns. *)
Definition GetMACAddress (Interfaces : list net.Interface * option error)
    : list byte * option error :=
  let '(ifaces, err) := Interfaces in
  match err with
  | Some e => ([], Some e)
  | None =>
      match GetMACAddress_range ifaces with
      | Some r => r
      | None => ([], Some (Errorf no_interface_message))
      end
  end.

(** *** GenerateIDs *)

(** Where the goroutine of [GenerateIDs] stands: at the top of its loop,
    or at the send with the timestamp and the value [output.Bytes()]. *)
Inductive producer_pc : Type :=
| LoopTop
| Sending (timestamp : Z) (value : list byte).

Record producer : Type := mkProducer {
  mac : list byte;
  routineID : Z;
  resultChan : nat;
  uniquePart : Buffer.t;
  hash : xxhash.XXHash64;
  pc : producer_pc
}.

(** The state [GenerateIDs(mac, routineID, resultChan)] starts its
    goroutine in. *)
Definition GenerateIDs (mac : list byte) (routineID : Z) (resultChan : nat) : producer :=
  {| mac := mac; routineID := routineID; resultChan := resultChan;
     uniquePart := Buffer.NewBuffer (replicate 28 x00);
     hash := xxhash.New64;
     pc := LoopTop |}.

(** One turn of the loop up to the send, the clock standing at [now]. *)
Definition iteration (p : producer) (now : Z) : producer :=
  let uniquePart := Buffer.Reset (uniquePart p) in
  let timestamp := time.UnixNano now in
  let '(uniquePart, _) := binary.Write uniquePart (binary.int64 timestamp) in
  let '(uniquePart, _) := binary.Write uniquePart (binary.HardwareAddr (mac p)) in
  let '(uniquePart, _) := binary.Write uniquePart (binary.int (routineID p)) in
  let hash := xxhash.Reset (hash p) in
  let hash := xxhash.Write hash (Buffer.Bytes uniquePart) in
  let output := Buffer.new in
  let '(output, _) := binary.Write output (binary.int64 timestamp) in
  let '(output, _) := binary.Write output (binary.uint64 (xxhash.Sum64 hash)) in
  {| mac := mac p; routineID := routineID p; resultChan := resultChan p;
     uniquePart := uniquePart; hash := hash;
     pc := Sending timestamp (Buffer.Bytes output) |}.

(** The send went through: back to the top of the loop. *)
Definition sent (p : producer) : producer :=
  {| mac := mac p; routineID := routineID p; resultChan := resultChan p;
     uniquePart := uniquePart p; hash := hash p; pc := LoopTop |}.

(** The bytes the digest of an iteration was computed over. *)
Definition hashed (p : producer) : list byte := xxhash.written (hash p).

(** The producer at each of its sends, one per clock reading, when every
    send is eventually received. *)
Fixpoint iterations (p : producer) (clock : list Z) : list producer :=
  match clock with
  | [] => []
  | now :: clock' =>
      let p' := iteration p now in p' :: iterations (sent p') clock'
  end.

(** *** GetUnixNanoFromID *)

Definition GetUnixNanoFromID (id : list byte) : outcome Z :=
  let result := 0 in
  let buf := Reader.NewReader id in
  do r <- binary.Read_int64 buf result;
  let '(_, result, _) := r in
  Returns result.

(** *** ByIDCreationTime *)

Module ByIDCreationTime.

(** [type ByIDCreationTime [][]byte]. *)
Abbreviation t := (list (list byte)).

Definition Len (a : t) : Z := Z.of_nat (length a).

(** [a[i], a[j] = a[j], a[i]]: both reads, then both writes. *)
Definition Swap (a : t) (i j : Z) : outcome t :=
  do x <- index a j;
  do y <- index a i;
  do a1 <- assign a i x;
  assign a1 j y.

Definition Less (a : t) (i j : Z) : outcome bool :=
  do x <- index a i;
  do tx <- GetUnixNanoFromID x;
  do y <- index a j;
  do ty <- GetUnixNanoFromID y;
  Returns (tx <? ty).

End ByIDCreationTime.

(** ** package sort *)

Module sort.

(** [sort.Interface]. *)
Class Interface (T : Type) : Type := {
  Len : T -> Z;
  Less : T -> Z -> Z -> outcome bool;
  Swap : T -> Z -> Z -> outcome T
}.

Section InsertionSort.
Context {T : Type} `{Interface T}.

(** [for j := i; j > a && data.Less(j, j-1); j-- { data.Swap(j, j-1) }]
    with [j = a + k]. *)
Fixpoint insertionSort_inner (data : T) (a : Z) (k : nat) : outcome T :=
  match k with
  | O => Returns data
  | S k' =>
      let j := a + Z.of_nat k in
      do lt <- Less data j (j - 1);
      if (lt : bool) then
        do data' <- Swap data j (j - 1);
        insertionSort_inner data' a k'
      else Returns data
  end.

(** [for i := a + 1; i < b; i++] with [i = a + k] and [todo = b - i]. *)
Fixpoint insertionSort_outer (data : T) (a : Z) (k todo : nat) : outcome T :=
  match todo with
  | O => Returns data
  | S todo' =>
      do data' <- insertionSort_inner data a k;
      insertionSort_outer data' a (S k) todo'
  end.

Definition insertionSort (data : T) (a b : Z) : outcome T :=
  insertionSort_outer data a 1 (Z.to_nat (b - a - 1)).

(** [sort.Sort]; the insertion sort is what it runs on short slices, and
    the contract is the same on long ones. *)
Definition Sort (data : T) : outcome T :=
  let n := Len data in
  if n <=? 1 then Returns data else insertionSort data 0 n.

End InsertionSort.

End sort.

#[export] Instance ByIDCreationTime_Interface : sort.Interface ByIDCreationTime.t := {
  sort.Len := ByIDCreationTime.Len;
  sort.Less := ByIDCreationTime.Less;
  sort.Swap := ByIDCreationTime.Swap
}.

(** *** GenerateNIDs and the goroutines it starts *)

(** A buffered channel of identifiers: capacity and queued values, oldest
    first. *)
Record chan : Type := mkChan { cap : Z; buf : list (list byte) }.

(** Where the goroutine that called [GenerateNIDs] stands. *)
Inductive main_pc : Type :=
| Entry
| Spawn (ids : list (list byte)) (results : nat) (routineID : Z)
| Drain (ids : list (list byte)) (results : nat) (i : nat)
| Return (ids : list (list byte))
| Panicked (p : panic).

(** The program state: the channels made so far, the goroutines started by
    [GenerateIDs], the caller of [GenerateNIDs], and two logs kept for the
    proofs: every send (producer, timestamp, value) and every receive
    (channel, value), oldest first. *)
Record world : Type := mkWorld {
  chans : list chan;
  producers : list producer;
  main : main_pc;
  send_log : list (nat * Z * list byte);
  recv_log : list (nat * list byte)
}.

(** One scheduling decision: the caller of [GenerateNIDs] runs, or producer
    [k] runs while the clock stands at [now]. *)
Inductive event : Type :=
| RunMain
| RunProducer (k : nat) (now : Z).

Section GenerateNIDs.

(** The arguments of the call, and what [runtime.GOMAXPROCS(0)] returns. *)
Variables (mac : list byte) (n : nat) (GOMAXPROCS : Z).

Definition init : world :=
  {| chans := []; producers := []; main := Entry; send_log := []; recv_log := [] |}.

(** A step of the caller.  A receive on an empty channel leaves the state
    as it is: the goroutine is blocked. *)
Definition main_step (w : world) : world :=
  match main w with
  | Entry =>
      let CPUCount := GOMAXPROCS in
      let ids := replicate n [] in
      let results := length (chans w) in
      if 128 * CPUCount <? 0 then
        {| chans := chans w; producers := producers w;
           main := Panicked MakechanSizeOutOfRange;
           send_log := send_log w; recv_log := recv_log w |}
      else
        {| chans := chans w ++ [ {| cap := 128 * CPUCount; buf := [] |} ];
           producers := producers w;
           main := Spawn ids results 0;
           send_log := send_log w; recv_log := recv_log w |}
  | Spawn ids results routineID =>
      let CPUCount := GOMAXPROCS in
      if routineID <? CPUCount then
        {| chans := chans w;
           producers := producers w ++ [GenerateIDs mac routineID results];
           main := Spawn ids results (routineID + 1);
           send_log := send_log w; recv_log := recv_log w |}
      else
        {| chans := chans w; producers := producers w;
           main := Drain ids results 0;
           send_log := send_log w; recv_log := recv_log w |}
  | Drain ids results i =>
      if (i <? n)%nat then
        match chans w !! results with
        | Some {| cap := c; buf := v :: queue |} =>
            match assign ids (Z.of_nat i) v with
            | Returns ids' =>
                {| chans := <[results := {| cap := c; buf := queue |}]> (chans w);
                   producers := producers w;
                   main := Drain ids' results (S i);
                   send_log := send_log w;
                   recv_log := recv_log w ++ [(results, v)] |}
            | Panics p =>
                {| chans := <[results := {| cap := c; buf := queue |}]> (chans w);
                   producers := producers w;
                   main := Panicked p;
                   send_log := send_log w;
                   recv_log := recv_log w ++ [(results, v)] |}
            end
        | _ => w
        end
      else
        {| chans := chans w; producers := producers w;
           main := Return ids;
           send_log := send_log w; recv_log := recv_log w |}
  | Return _ | Panicked _ => w
  end.

(** A step of producer [k].  A send on a full channel leaves the state as
    it is: the goroutine is blocked.  (The channel of [GenerateNIDs] has no
    buffer only when [CPUCount] is 0, and then nothing sends on it.) *)
Definition producer_step (k : nat) (now : Z) (w : world) : world :=
  match producers w !! k with
  | None => w
  | Some p =>
      match pc p with
      | LoopTop =>
          {| chans := chans w;
             producers := <[k := iteration p now]> (producers w);
             main := main w;
             send_log := send_log w; recv_log := recv_log w |}
      | Sending timestamp value =>
          match chans w !! resultChan p with
          | Some ch =>
              if Z.of_nat (length (buf ch)) <? cap ch then
                {| chans := <[resultChan p :=
                               {| cap := cap ch; buf := buf ch ++ [value] |}]> (chans w);
                   producers := <[k := sent p]> (producers w);
                   main := main w;
                   send_log := send_log w ++ [(k, timestamp, value)];
                   recv_log := recv_log w |}
              else w
          | None => w
          end
      end
  end.

Definition step (e : event) (w : world) : world :=
  match e with
  | RunMain => main_step w
  | RunProducer k now => producer_step k now w
  end.

(** The state after a schedule, its events taken in order. *)
Definition run (schedule : list event) (w : world) : world :=
  fold_left (fun w e => step e w) schedule w.

(** What [GenerateNIDs] returns under a schedule, if it has returned. *)
Definition GenerateNIDs (schedule : list event) : option (list (list byte)) :=
  match main (run schedule init) with
  | Return ids => Some ids
  | _ => None
  end.

End GenerateNIDs.

(** *** The entropy layout as the documentation describes it *)

(** [width] bytes of [v], least significant first. *)
Fixpoint put_le (width : nat) (v : Z) : list byte :=
  match width with
  | O => []
  | S width' => byte_of_Z v :: put_le width' (Z.shiftr v 8)
  end.

(** Timestamp, hardware address, then the worker index as a machine integer
    of [intSize] bytes: the layout the comments of [GenerateIDs] and the
    three [binary.Write] calls aim at. *)
Definition documented_entropy (intSize : nat) (timestamp : Z) (mac : list byte)
    (routineID : Z) : list byte :=
  put_le 8 timestamp ++ mac ++ put_le intSize routineID.

(** *** Vocabulary of the statements *)

(** A hardware address and a clock reading to evaluate on. *)
Definition sample_mac : list byte := [x00; x11; x22; x33; x44; x55].
Definition sample_now : Z := 1494590520160966782.

(** [GetUnixNanoFromID] has one result, an [int64], and no [error] result:
    the only way a call could fail is by panicking. *)
Definition fails {A : Type} (o : outcome A) : Prop :=
  match o with
  | Panics _ => True
  | Returns _ => False
  end.

(** The three identifiers of the test suite, and the first with one byte
    more. *)
Definition test_id : list byte :=
  [x7e; x58; xdc; xce; x28; xda; xbd; x14; x9b; x89; xd1; x2b; xc5; x8c; xa5; xe0].
Definition test_id_second : list byte :=
  [xef; x61; xdc; xce; x28; xda; xbd; x14; x8e; xe1; xf2; x81; x57; xe9; x9a; x42].
Definition test_id_third : list byte :=
  [xa3; x7a; xdc; xce; x28; xda; xbd; x14; xe1; x2b; xa2; x8a; xb7; x6f; x3b; x11].
Definition test_id_17 : list byte := test_id ++ [x00].

(** The timestamp [GetUnixNanoFromID] finds in an identifier. *)
Definition timestamp_of (id : list byte) : Z :=
  match GetUnixNanoFromID id with
  | Returns t => t
  | Panics _ => 0
  end.

(** Not later than, by the timestamps [GetUnixNanoFromID] finds. *)
Definition by_time (x y : list byte) : Prop := timestamp_of x <= timestamp_of y.

(** The failure the documentation calls NoSuitableInterface: [GetMACAddress]
    returned an error that is not [nil]. *)
Definition NoSuitableInterface (r : list byte * option error) : Prop :=
  snd r <> None.

(** Interfaces to evaluate on: a Linux loopback, an Ethernet card, a tunnel
    without a hardware address, the loopback as BSD and macOS name it, and
    an InfiniBand port with its 20-byte address. *)
Definition lo : net.Interface :=
  {| net.Index := 1; net.MTU := 65536; net.Name := "lo"; net.HardwareAddr := [];
     net.Flags := Z.lor net.FlagUp net.FlagLoopback |}.
Definition eth0 : net.Interface :=
  {| net.Index := 2; net.MTU := 1500; net.Name := "eth0";
     net.HardwareAddr := [x00; x11; x22; x33; x44; x55];
     net.Flags := Z.lor net.FlagUp net.FlagBroadcast |}.
Definition tun0 : net.Interface :=
  {| net.Index := 3; net.MTU := 1500; net.Name := "tun0"; net.HardwareAddr := [];
     net.Flags := net.FlagUp |}.
Definition lo0 : net.Interface :=
  {| net.Index := 1; net.MTU := 16384; net.Name := "lo0"; net.HardwareAddr := [];
     net.Flags := Z.lor net.FlagUp net.FlagLoopback |}.
Definition ib0 : net.Interface :=
  {| net.Index := 4; net.MTU := 2044; net.Name := "ib0";
     net.HardwareAddr := replicate 20 x80;
     net.Flags := Z.lor net.FlagUp net.FlagBroadcast |}.

(** The identifier one iteration builds from its timestamp, in closed
    form. *)
Definition identifier (hw : list byte) (timestamp : Z) : list byte :=
  binary.PutUint64 timestamp
    ++ binary.PutUint64 (xxhash.Checksum64 (binary.PutUint64 timestamp ++ hw)).

Definition well_formed (hw : list byte) (timestamp : Z) (value : list byte) : Prop :=
  is_int64 timestamp /\ value = identifier hw timestamp.

(** Worker index, channel and hardware address of every producer, in the
    order they were started; and what they are when [count] producers were
    started on channel 0 with hardware address [hw]. *)
Definition workers (w : world) : list (Z * nat * list byte) :=
  (fun p => (routineID p, resultChan p, mac p)) <$> producers w.

Definition crew (hw : list byte) (count : nat) : list (Z * nat * list byte) :=
  (fun k => (Z.of_nat k, 0%nat, hw)) <$> seq 0 count.

(** The values waiting in the one channel of the program. *)
Definition queue (w : world) : list (list byte) :=
  match chans w with
  | [ch] => buf ch
  | _ => []
  end.


Definition pc_ok (hw : list byte) (p : producer) : Prop :=
  match pc p with
  | LoopTop => True
  | Sending timestamp value => well_formed hw timestamp value
  end.

(** What holds of the caller at each point of [GenerateNIDs]. *)
Definition phase_ok (hw : list byte) (n : nat) (G : Z) (w : world) : Prop :=
  match main w with
  | Entry =>
      chans w = [] /\ producers w = [] /\ recv_log w = [] /\ send_log w = []
  | Spawn ids results r =>
      results = 0%nat /\ 0 <= r <= G /\ workers w = crew hw (Z.to_nat r)
      /\ ids = replicate n [] /\ recv_log w = []
  | Drain ids results i =>
      results = 0%nat /\ 0 <= G /\ workers w = crew hw (Z.to_nat G)
      /\ (i <= n)%nat /\ length (recv_log w) = i
      /\ ids = (snd <$> recv_log w) ++ replicate (n - i) []
  | Return ids =>
      0 <= G /\ workers w = crew hw (Z.to_nat G)
      /\ length (recv_log w) = n /\ ids = snd <$> recv_log w
  | Panicked _ =>
      chans w = [] /\ producers w = [] /\ G < 0
  end.

Definition chan_ok (G : Z) (w : world) : Prop :=
  match main w with
  | Entry | Panicked _ => chans w = []
  | _ => exists q, chans w = [ {| cap := 128 * G; buf := q |} ]
  end.

(** The invariant of the program started by [GenerateNIDs(hw, n)]. *)
Record inv (hw : list byte) (n : nat) (G : Z) (w : world) : Prop := mkInv {
  inv_phase : phase_ok hw n G w;
  inv_chan : chan_ok G w;
  inv_pcs : Forall (pc_ok hw) (producers w);
  inv_sent : Forall (fun e => well_formed hw (snd (fst e)) (snd e)) (send_log w);
  inv_fifo : snd <$> send_log w = (snd <$> recv_log w) ++ queue w;
  inv_recv : Forall (fun e => fst e = 0%nat) (recv_log w)
}.


(** A schedule to evaluate on: two producers, two identifiers asked for;
    both producers read the clock at the same instant. *)
Definition sample_schedule : list event :=
  [RunMain; RunMain; RunMain; RunMain;
   RunProducer 0 sample_now; RunProducer 1 sample_now;
   RunProducer 1 0; RunProducer 0 0;
   RunMain; RunMain; RunMain].

(** The value a producer standing at its send is about to send. *)
Definition sent_value (p : producer) : list byte :=
  match pc p with
  | Sending _ value => value
  | LoopTop => []
  end.

(** No channel holds more values than its capacity. *)
Definition within_capacity (w : world) : Prop :=
  Forall (fun ch => Z.of_nat (length (buf ch)) <= cap ch) (chans w).



(** * Properties *)

(** ** Machine integers and the little-endian codec *)

Section Codec.

Lemma Z_of_byte_of_Z (v : Z) : Z_of_byte (byte_of_Z v) = Z.land v 255.
Proof.
  unfold Z_of_byte, byte_of_Z.
  assert (Hr : 0 <= Z.land v 255 < 256).
  { change 255 with (Z.ones 8). rewrite Z.land_ones by lia.
    apply Z.mod_pos_bound. lia. }
  destruct (Byte.of_N (Z.to_N (Z.land v 255))) as [b|] eqn:E.
  - apply Byte.to_of_N in E. rewrite E. lia.
  - apply Byte.of_N_None_iff in E. lia.
Qed.

Lemma to_uint64_mod (v : Z) : to_uint64 v = v mod two64.
Proof. unfold to_uint64, two64. change (2 ^ 64 - 1) with (Z.ones 64). apply Z.land_ones. lia. Qed.

Lemma to_uint64_range (v : Z) : is_uint64 (to_uint64 v).
Proof. rewrite to_uint64_mod. apply Z.mod_pos_bound. unfold two64. lia. Qed.

Lemma to_uint64_id (v : Z) : is_uint64 v -> to_uint64 v = v.
Proof. intros Hv. rewrite to_uint64_mod. apply Z.mod_small. exact Hv. Qed.

Lemma to_int64_range (v : Z) : is_int64 (to_int64 v).
Proof.
  unfold to_int64, is_int64. pose proof (to_uint64_range v) as Hu.
  unfold is_uint64, two64, two63 in *.
  destruct (Z.ltb_spec (to_uint64 v) (2 ^ 63)); lia.
Qed.

(** [int64(uint64(t)) = t] for an [int64] [t]. *)
Lemma to_int64_to_uint64 (t : Z) : is_int64 t -> to_int64 (to_uint64 t) = t.
Proof.
  unfold is_int64, to_int64, two63. intros Ht.
  rewrite (to_uint64_id (to_uint64 t)) by apply to_uint64_range.
  rewrite to_uint64_mod. unfold two64.
  destruct (Z.le_gt_cases 0 t) as [Hpos|Hneg].
  - rewrite Z.mod_small by lia. destruct (Z.ltb_spec t (2 ^ 63)); lia.
  - replace (t mod 2 ^ 64) with (t + 2 ^ 64).
    + destruct (Z.ltb_spec (t + 2 ^ 64) (2 ^ 63)); lia.
    + apply Z.mod_unique with (q := -1); lia.
Qed.

Lemma length_PutUint64 (v : Z) : length (binary.PutUint64 v) = 8%nat.
Proof. reflexivity. Qed.

Lemma put_le_8 (v : Z) : put_le 8 v = binary.PutUint64 v.
Proof.
  unfold binary.PutUint64. cbn [put_le].
  rewrite !Z.shiftr_shiftr by lia. reflexivity.
Qed.

Lemma length_put_le (width : nat) (v : Z) : length (put_le width v) = width.
Proof. revert v. induction width as [|w IH]; intros v; cbn; [reflexivity|]. now rewrite IH. Qed.

Ltac eval_literal_indices :=
  repeat match goal with
    | |- context [Z.to_nat ?k] =>
        let r := eval compute in (Z.to_nat k) in change (Z.to_nat k) with r
    end.

Ltac split_bit_ranges :=
  repeat match goal with
    | |- context [?a <=? ?b] => destruct (Z.leb_spec a b); try lia
    | |- context [?a <? ?b] => destruct (Z.ltb_spec a b); try lia
    end.

(** Reading back the eight bytes of [PutUint64 v] gives the low 64 bits. *)
Lemma Uint64_PutUint64 (v : Z) (rest : list byte) :
  binary.Uint64 (binary.PutUint64 v ++ rest) = Returns (to_uint64 v).
Proof.
  unfold binary.Uint64, binary.PutUint64, index.
  eval_literal_indices. cbn. f_equal.
  rewrite !Z_of_byte_of_Z. unfold to_uint64, two64.
  change 255 with (Z.ones 8). change (2 ^ 64 - 1) with (Z.ones 64).
  apply Z.bits_inj'. intros i Hi.
  rewrite !Z.lor_spec, !Z.shiftl_spec, !Z.land_spec by lia.
  rewrite !Z.testbit_ones by lia.
  destruct (Z.lt_ge_cases i 8); [|destruct (Z.lt_ge_cases i 16);
    [|destruct (Z.lt_ge_cases i 24); [|destruct (Z.lt_ge_cases i 32);
    [|destruct (Z.lt_ge_cases i 40); [|destruct (Z.lt_ge_cases i 48);
    [|destruct (Z.lt_ge_cases i 56); [|destruct (Z.lt_ge_cases i 64)]]]]]]];
    split_bit_ranges;
    rewrite ?andb_false_r, ?andb_true_r, ?orb_false_r, ?orb_false_l;
    rewrite ?Z.shiftr_spec by lia;
    try reflexivity;
    match goal with |- Z.testbit _ ?a = Z.testbit _ ?b => replace a with b by lia; reflexivity end.
Qed.

Lemma Z_of_byte_range (b : byte) : 0 <= Z_of_byte b < 256.
Proof.
  unfold Z_of_byte. pose proof (Byte.to_N_bounded b) as Hb. lia.
Qed.

Lemma lor_shiftl_add (a b k : Z) :
  0 <= k -> 0 <= a < 2 ^ k -> Z.lor a (Z.shiftl b k) = a + b * 2 ^ k.
Proof.
  intros Hk Ha. rewrite <- Z.add_lor_land, Z.shiftl_mul_pow2 by exact Hk.
  rewrite <- Z.shiftl_mul_pow2 by exact Hk.
  replace (Z.land a (Z.shiftl b k)) with 0; [now rewrite Z.add_0_r|].
  symmetry. apply Z.bits_inj'. intros i Hi.
  rewrite Z.land_spec, Z.bits_0.
  destruct (Z.lt_ge_cases i k) as [Hlt|Hge].
  - rewrite Z.shiftl_spec_low by exact Hlt. apply andb_false_r.
  - rewrite <- (Z.mod_small a (2 ^ k)) by exact Ha.
    rewrite Z.mod_pow2_bits_high by lia. reflexivity.
Qed.

(** [Uint64] reads the first eight bytes of a slice that has them. *)
Lemma Uint64_le_uint (b : list byte) :
  (8 <= length b)%nat -> binary.Uint64 b = Returns (le_uint (take 8 b)).
Proof.
  intros Hlen.
  destruct b as [|b0 [|b1 [|b2 [|b3 [|b4 [|b5 [|b6 [|b7 rest]]]]]]]];
    cbn in Hlen; try lia.
  unfold binary.Uint64, index. eval_literal_indices. cbn. f_equal.
  pose proof (Z_of_byte_range b0). pose proof (Z_of_byte_range b1).
  pose proof (Z_of_byte_range b2). pose proof (Z_of_byte_range b3).
  pose proof (Z_of_byte_range b4). pose proof (Z_of_byte_range b5).
  pose proof (Z_of_byte_range b6). pose proof (Z_of_byte_range b7).
  rewrite (lor_shiftl_add (Z_of_byte b0) _ 8) by lia.
  rewrite (lor_shiftl_add _ (Z_of_byte b2) 16) by lia.
  rewrite (lor_shiftl_add _ (Z_of_byte b3) 24) by lia.
  rewrite (lor_shiftl_add _ (Z_of_byte b4) 32) by lia.
  rewrite (lor_shiftl_add _ (Z_of_byte b5) 40) by lia.
  rewrite (lor_shiftl_add _ (Z_of_byte b6) 48) by lia.
  rewrite (lor_shiftl_add _ (Z_of_byte b7) 56) by lia.
  rewrite take_0. cbn [le_uint]. ring.
Qed.

Lemma le_uint_PutUint64 (v : Z) : le_uint (binary.PutUint64 v) = to_uint64 v.
Proof.
  pose proof (Uint64_PutUint64 v []) as H1.
  rewrite app_nil_r in H1.
  rewrite Uint64_le_uint in H1 by (rewrite length_PutUint64; lia).
  injection H1 as H1. exact H1.
Qed.

(** What [io.ReadFull] gets out of a fresh reader when asked for 8 bytes. *)
Lemma ReadFull_8 (b : list byte) :
  exists r,
    io.ReadFull (Reader.NewReader b) 8 =
      (r, take 8 b,
       if (8 <=? length b)%nat then None
       else match b with [] => Some EOF | _ => Some ErrUnexpectedEOF end).
Proof.
  destruct b as [|b0 [|b1 [|b2 [|b3 [|b4 [|b5 [|b6 [|b7 rest]]]]]]]];
    eexists; cbn; reflexivity.
Qed.

(** [GetUnixNanoFromID] in closed form. *)
Lemma GetUnixNanoFromID_eq (id : list byte) :
  GetUnixNanoFromID id =
    Returns (if (8 <=? length id)%nat then to_int64 (le_uint (take 8 id)) else 0).
Proof.
  unfold GetUnixNanoFromID, binary.Read_int64.
  destruct (ReadFull_8 id) as [r Hr]. rewrite Hr.
  destruct (Nat.leb_spec 8 (length id)) as [Hlen|Hlen].
  - rewrite Uint64_le_uint by (rewrite length_take; lia).
    rewrite take_take. reflexivity.
  - destruct id; reflexivity.
Qed.

End Codec.

(** ** One producer *)

Section Producer.

Lemma PutUint64_to_uint64 (v : Z) : binary.PutUint64 (to_uint64 v) = binary.PutUint64 v.
Proof.
  assert (Hb : forall k, 0 <= k <= 56 ->
             byte_of_Z (Z.shiftr (to_uint64 v) k) = byte_of_Z (Z.shiftr v k)).
  { intros k Hk.
    assert (Hland : Z.land (Z.shiftr (to_uint64 v) k) 255 = Z.land (Z.shiftr v k) 255).
    { unfold to_uint64, two64. change (2 ^ 64 - 1) with (Z.ones 64).
      change 255 with (Z.ones 8).
      apply Z.bits_inj'. intros i Hi.
      rewrite !Z.land_spec, !Z.shiftr_spec, Z.land_spec, !Z.testbit_ones by lia.
      destruct (Z.ltb_spec i 8) as [Hlt|Hge].
      - replace (i + k <? 64) with true by (symmetry; apply Z.ltb_lt; lia).
        replace (0 <=? i + k) with true by (symmetry; apply Z.leb_le; lia).
        now rewrite !andb_true_r.
      - now rewrite !andb_false_r. }
    unfold byte_of_Z. rewrite Hland. reflexivity. }
  unfold binary.PutUint64.
  rewrite <- (Z.shiftr_0_r (to_uint64 v)) at 1. rewrite <- (Z.shiftr_0_r v) at 1.
  rewrite !Hb by lia. reflexivity.
Qed.

Lemma Write_int64 (w : Buffer.t) (v : Z) :
  binary.Write w (binary.int64 v) = (w ++ binary.PutUint64 v, None).
Proof. unfold binary.Write, Buffer.Write. cbn -[binary.PutUint64]. now rewrite PutUint64_to_uint64. Qed.

Lemma Write_uint64 (w : Buffer.t) (v : Z) :
  binary.Write w (binary.uint64 v) = (w ++ binary.PutUint64 v, None).
Proof. unfold binary.Write, Buffer.Write. cbn -[binary.PutUint64]. now rewrite PutUint64_to_uint64. Qed.

Lemma Write_HardwareAddr (w : Buffer.t) (a : list byte) :
  binary.Write w (binary.HardwareAddr a) = (w ++ a, None).
Proof.
  unfold binary.Write, Buffer.Write. cbn.
  destruct (Z.ltb_spec (1 * Z.of_nat (length a)) 0); [lia|reflexivity].
Qed.

(** The worker index is not part of what the digest is computed over: the
    third [binary.Write] is handed an [int], which has no fixed size, and
    writes nothing. *)
Lemma Write_int_rejected (w : Buffer.t) (routineID : Z) :
  binary.Write w (binary.int routineID) = (w, Some (ErrNotFixedSize "int")).
Proof. reflexivity. Qed.

(** What one turn of the loop hashes and what it sends. *)
Lemma iteration_eq (p : producer) (now : Z) :
  let timestamp := time.UnixNano now in
  let entropy := binary.PutUint64 timestamp ++ mac p in
  iteration p now =
    {| mac := mac p; routineID := routineID p; resultChan := resultChan p;
       uniquePart := entropy;
       hash := {| xxhash.written := entropy |};
       pc := Sending timestamp
               (binary.PutUint64 timestamp
                  ++ binary.PutUint64 (xxhash.Checksum64 entropy)) |}.
Proof.
  unfold iteration.
  rewrite Write_int64, Write_HardwareAddr, Write_int_rejected.
  rewrite Write_int64, Write_uint64.
  unfold Buffer.Reset, Buffer.Bytes, Buffer.new, xxhash.Write, xxhash.Reset, xxhash.Sum64.
  cbn -[binary.PutUint64 xxhash.Checksum64]. reflexivity.
Qed.

Lemma iterations_fields (p : producer) (clock : list Z) :
  Forall (fun q => mac q = mac p /\ routineID q = routineID p
                   /\ resultChan q = resultChan p)
    (iterations p clock).
Proof.
  revert p. induction clock as [|now clock IH]; intros p; cbn [iterations].
  - constructor.
  - constructor.
    + rewrite iteration_eq. cbn. auto.
    + specialize (IH (sent (iteration p now))).
      rewrite iteration_eq in IH |- *. cbn in IH |- *. exact IH.
Qed.

Lemma length_iterations (p : producer) (clock : list Z) :
  length (iterations p clock) = length clock.
Proof.
  revert p. induction clock as [|now clock IH]; intros p; cbn; [reflexivity|].
  now rewrite IH.
Qed.

(** A property of every iteration that depends on the producer only
    through its three arguments holds all along [iterations]. *)
Lemma iterations_Forall2 (P : Z -> producer -> Prop) (m : list byte) (r : Z) (c : nat) :
  (forall p now, mac p = m -> routineID p = r -> resultChan p = c ->
                 P now (iteration p now)) ->
  forall p clock, mac p = m -> routineID p = r -> resultChan p = c ->
  Forall2 P clock (iterations p clock).
Proof.
  intros HP p clock. revert p.
  induction clock as [|now clock IH]; intros p Hm Hr Hc; cbn [iterations].
  - constructor.
  - constructor; [now apply HP|].
    apply IH; rewrite iteration_eq; cbn; assumption.
Qed.

Lemma hashed_iteration (p : producer) (now : Z) :
  hashed (iteration p now) = put_le 8 (time.UnixNano now) ++ mac p.
Proof. rewrite iteration_eq. unfold hashed. cbn [hash xxhash.written]. now rewrite <- put_le_8. Qed.

Lemma hashed_not_documented (intSize : nat) (p : producer) (now : Z) :
  (0 < intSize)%nat ->
  hashed (iteration p now)
    <> documented_entropy intSize (time.UnixNano now) (mac p) (routineID p).
Proof.
  intros Hw Heq. apply (f_equal length) in Heq.
  rewrite hashed_iteration in Heq. unfold documented_entropy in Heq.
  rewrite !length_app, !length_put_le in Heq. lia.
Qed.

(** Two producers that differ in their worker index only send the same
    identifier when they read the same clock value. *)
Lemma same_clock_same_identifier (m : list byte) (r1 r2 : Z) (c : nat) (now : Z) :
  pc (iteration (GenerateIDs m r1 c) now) = pc (iteration (GenerateIDs m r2 c) now).
Proof. rewrite !iteration_eq. reflexivity. Qed.

End Producer.

(** C1, evaluated on the code: with hardware address 00:11:22:33:44:55,
    worker index 1 and the clock at 1494590520160966782, the bytes hashed are
    the 8 timestamp bytes and the 6 address bytes and nothing else, 14
    bytes; they are not the documented layout with the worker index
    appended as a 4-byte or as an 8-byte little-endian integer. *)
Theorem hashed_omits_routineID :
  let p := iteration (GenerateIDs sample_mac 1 0) sample_now in
  hashed p = [x7e; x58; xdc; xce; x28; xda; xbd; x14; x00; x11; x22; x33; x44; x55]
  /\ hashed p <> documented_entropy 4 sample_now sample_mac 1
  /\ hashed p <> documented_entropy 8 sample_now sample_mac 1
  /\ documented_entropy 8 sample_now sample_mac 1
     = [x7e; x58; xdc; xce; x28; xda; xbd; x14; x00; x11; x22; x33; x44; x55;
        x01; x00; x00; x00; x00; x00; x00; x00].
Proof.
  cbv zeta. repeat split; try (vm_compute; reflexivity); vm_compute; discriminate.
Qed.

(** C4: every identifier a producer started by GenerateIDs sends is 16
    bytes long: the 8 little-endian bytes of the timestamp followed by the
    8 little-endian bytes of the 64-bit digest of what was hashed. *)
Theorem identifier_layout (m : list byte) (r : Z) (c : nat) (clock : list Z) :
  Forall
    (fun p => exists timestamp value,
       pc p = Sending timestamp value
       /\ length value = 16%nat
       /\ value = put_le 8 timestamp ++ put_le 8 (xxhash.Sum64 (hash p)))
    (iterations (GenerateIDs m r c) clock).
Proof.
  generalize (GenerateIDs m r c). intros p. revert p.
  induction clock as [|now clock IH]; intros p; cbn [iterations]; constructor.
  - rewrite iteration_eq. cbn -[binary.PutUint64 xxhash.Checksum64 put_le].
    eexists _, _. split; [reflexivity|]. split.
    + rewrite length_app, !length_PutUint64. reflexivity.
    + f_equal; symmetry; apply put_le_8.
  - apply IH.
Qed.

(** One iteration sends an identifier that decodes to its timestamp. *)
Lemma iteration_round_trip (p : producer) (now : Z) :
  exists value,
    pc (iteration p now) = Sending (time.UnixNano now) value
    /\ GetUnixNanoFromID value = Returns (time.UnixNano now)
    /\ to_int64 (le_uint (take 8 value)) = time.UnixNano now.
Proof.
  rewrite iteration_eq.
  cbn -[binary.PutUint64 xxhash.Checksum64 take].
  eexists. split; [reflexivity|].
  assert (Hdec : to_int64 (le_uint (take 8 (binary.PutUint64 (time.UnixNano now)
                   ++ binary.PutUint64 (xxhash.Checksum64
                        (binary.PutUint64 (time.UnixNano now) ++ mac p)))))
                 = time.UnixNano now).
  { rewrite take_app_length' by reflexivity.
    rewrite le_uint_PutUint64. apply to_int64_to_uint64. apply to_int64_range. }
  split; [|exact Hdec].
  rewrite GetUnixNanoFromID_eq, Hdec.
  rewrite length_app, !length_PutUint64. reflexivity.
Qed.

(** C5: the identifier sent by the iteration that captured timestamp [t]
    decodes to [t]: GetUnixNanoFromID of it returns [t], and its leading 8
    bytes, read as a little-endian signed 64-bit integer, are [t]. *)
Theorem timestamp_round_trip (m : list byte) (r : Z) (c : nat) (clock : list Z) :
  Forall2
    (fun now p => exists value,
       pc p = Sending (time.UnixNano now) value
       /\ GetUnixNanoFromID value = Returns (time.UnixNano now)
       /\ to_int64 (le_uint (take 8 value)) = time.UnixNano now)
    clock (iterations (GenerateIDs m r c) clock).
Proof.
  apply (iterations_Forall2 _ m r c); try reflexivity.
  intros p now _ _ _. apply iteration_round_trip.
Qed.

(** ** The timestamp codec *)

Example GetUnixNanoFromID_test_id :
  GetUnixNanoFromID test_id = Returns 1494590520160966782.
Proof. vm_compute. reflexivity. Qed.

(** C2 does not hold as stated: a 17-byte input is not rejected, the call
    returns the timestamp of its first 8 bytes. *)
Lemma GetUnixNanoFromID_accepts_17_bytes :
  length test_id_17 <> 16%nat
  /\ GetUnixNanoFromID test_id_17 = Returns 1494590520160966782
  /\ ~ fails (GetUnixNanoFromID test_id_17).
Proof.
  split; [vm_compute; discriminate|].
  split; [vm_compute; reflexivity|].
  vm_compute. exact (fun H => H).
Qed.

(** C2, amended: GetUnixNanoFromID has no error result.  On every input
    whose length is not 16 it returns an int64 without failing and
    without reading past the input: the first 8 bytes read as a
    little-endian signed 64-bit integer when there are at least 8 bytes,
    and 0 when there are fewer. *)
Theorem GetUnixNanoFromID_any_length (id : list byte) :
  length id <> 16%nat ->
  exists v,
    GetUnixNanoFromID id = Returns v
    /\ ~ fails (GetUnixNanoFromID id)
    /\ is_int64 v
    /\ ((8 <= length id)%nat -> v = to_int64 (le_uint (take 8 id)))
    /\ ((length id < 8)%nat -> v = 0).
Proof.
  intros _. rewrite GetUnixNanoFromID_eq. eexists. split; [reflexivity|].
  split; [exact (fun H => H)|].
  destruct (Nat.leb_spec 8 (length id)) as [Hlen|Hlen].
  - split; [apply to_int64_range|]. split; [reflexivity|lia].
  - split; [unfold is_int64, two63; lia|]. split; [lia|reflexivity].
Qed.

Lemma GetUnixNanoFromID_any_length_witness :
  exists v,
    GetUnixNanoFromID test_id_17 = Returns v
    /\ ~ fails (GetUnixNanoFromID test_id_17)
    /\ is_int64 v
    /\ ((8 <= length test_id_17)%nat -> v = to_int64 (le_uint (take 8 test_id_17)))
    /\ ((length test_id_17 < 8)%nat -> v = 0).
Proof.
  apply (GetUnixNanoFromID_any_length test_id_17). vm_compute. discriminate.
Defined.

(** C9: on an input shorter than 8 bytes, the empty one included,
    GetUnixNanoFromID drops the read error and returns 0, which is also what
    it returns on an identifier generated at the epoch; and on no input at
    all does it signal an error. *)
Theorem GetUnixNanoFromID_short_returns_0 (id : list byte) :
  (length id < 8)%nat ->
  GetUnixNanoFromID id = Returns 0
  /\ (exists r e, binary.Read_int64 (Reader.NewReader id) 0 = Returns (r, 0, Some e))
  /\ (forall m r c, exists value,
        pc (iteration (GenerateIDs m r c) 0) = Sending 0 value
        /\ GetUnixNanoFromID value = GetUnixNanoFromID id)
  /\ (forall id', exists v, GetUnixNanoFromID id' = Returns v).
Proof.
  intros Hlen. assert (H0 : GetUnixNanoFromID id = Returns 0).
  { rewrite GetUnixNanoFromID_eq.
    destruct (Nat.leb_spec 8 (length id)); [lia|reflexivity]. }
  split; [exact H0|]. split; [|split].
  - unfold binary.Read_int64. destruct (ReadFull_8 id) as [r Hr]. rewrite Hr.
    destruct (Nat.leb_spec 8 (length id)); [lia|].
    destruct id; eexists _, _; reflexivity.
  - intros m r c.
    destruct (iteration_round_trip (GenerateIDs m r c) 0) as [value [Hpc [Hget _]]].
    exists value. split; [exact Hpc|]. rewrite H0. exact Hget.
  - intros id'. rewrite GetUnixNanoFromID_eq. eexists. reflexivity.
Qed.

Lemma GetUnixNanoFromID_short_returns_0_witness :
  GetUnixNanoFromID [x7e; x58; xdc] = Returns 0
  /\ (exists r e,
        binary.Read_int64 (Reader.NewReader [x7e; x58; xdc]) 0 = Returns (r, 0, Some e))
  /\ (forall m r c, exists value,
        pc (iteration (GenerateIDs m r c) 0) = Sending 0 value
        /\ GetUnixNanoFromID value = GetUnixNanoFromID [x7e; x58; xdc])
  /\ (forall id', exists v, GetUnixNanoFromID id' = Returns v).
Proof.
  apply (GetUnixNanoFromID_short_returns_0 [x7e; x58; xdc]). cbn. lia.
Defined.

(** ** The comparator and sorting with it *)

Section Comparator.

Lemma GetUnixNanoFromID_timestamp_of (id : list byte) :
  GetUnixNanoFromID id = Returns (timestamp_of id).
Proof. unfold timestamp_of. rewrite GetUnixNanoFromID_eq. reflexivity. Qed.

Lemma index_of_nat {A : Type} (s : list A) (k : nat) (x : A) :
  s !! k = Some x -> index s (Z.of_nat k) = Returns x.
Proof.
  intros Hk. unfold index.
  destruct (Z.ltb_spec (Z.of_nat k) 0); [lia|].
  rewrite Nat2Z.id, Hk. reflexivity.
Qed.

Lemma assign_of_nat {A : Type} (s : list A) (k : nat) (x : A) :
  (k < length s)%nat -> assign s (Z.of_nat k) x = Returns (<[k := x]> s).
Proof.
  intros Hk. unfold assign.
  destruct (Z.ltb_spec (Z.of_nat k) 0); [lia|].
  rewrite Nat2Z.id.
  destruct (Nat.ltb_spec k (length s)); [reflexivity|lia].
Qed.

Lemma Less_of_nat (a : ByIDCreationTime.t) (i j : nat) (x y : list byte) :
  a !! i = Some x -> a !! j = Some y ->
  ByIDCreationTime.Less a (Z.of_nat i) (Z.of_nat j)
    = Returns (timestamp_of x <? timestamp_of y).
Proof.
  intros Hi Hj. unfold ByIDCreationTime.Less.
  rewrite (index_of_nat _ _ _ Hi), (index_of_nat _ _ _ Hj).
  cbn [bind]. rewrite !GetUnixNanoFromID_timestamp_of. reflexivity.
Qed.

Lemma Swap_of_nat (a : ByIDCreationTime.t) (i j : nat) (x y : list byte) :
  a !! i = Some x -> a !! j = Some y ->
  ByIDCreationTime.Swap a (Z.of_nat i) (Z.of_nat j)
    = Returns (<[j := x]> (<[i := y]> a)).
Proof.
  intros Hi Hj. unfold ByIDCreationTime.Swap.
  rewrite (index_of_nat _ _ _ Hi), (index_of_nat _ _ _ Hj). cbn [bind].
  rewrite assign_of_nat by (eapply lookup_lt_Some; eassumption). cbn [bind].
  rewrite assign_of_nat; [reflexivity|].
  rewrite length_insert. eapply lookup_lt_Some; eassumption.
Qed.


#[local] Instance by_time_trans : Transitive by_time.
Proof. unfold by_time. intros x y z Hxy Hyz. lia. Qed.




(** Whatever procedure rearranges the slice: an arrangement in which [Less]
    never puts a later element before an earlier one is in ascending order
    of timestamps. *)
Lemma no_inversion_ascending (b : ByIDCreationTime.t) :
  (forall i j, (i < j < length b)%nat ->
     ByIDCreationTime.Less b (Z.of_nat j) (Z.of_nat i) = Returns false) ->
  StronglySorted Z.le (timestamp_of <$> b).
Proof.
  induction b as [|x b IH]; intros Hinv; cbn; constructor.
  - apply IH. intros i j Hij.
    specialize (Hinv (S i) (S j) ltac:(cbn; lia)).
    destruct (lookup_lt_is_Some_2 b i ltac:(lia)) as [xi Hxi].
    destruct (lookup_lt_is_Some_2 b j ltac:(lia)) as [xj Hxj].
    rewrite (Less_of_nat (x :: b) (S j) (S i) xj xi) in Hinv by assumption.
    rewrite (Less_of_nat b j i xj xi) by assumption. exact Hinv.
  - apply Forall_fmap, Forall_lookup. intros j y Hy. cbn.
    specialize (Hinv 0%nat (S j) ltac:(apply lookup_lt_Some in Hy; cbn; lia)).
    rewrite (Less_of_nat (x :: b) (S j) 0 y x) in Hinv by (assumption || reflexivity).
    injection Hinv as Hinv. apply Z.ltb_ge in Hinv. exact Hinv.
Qed.

End Comparator.



Example Sort_test_suite :
  sort.Sort [test_id_second; test_id_third; test_id]
    = Returns [test_id; test_id_second; test_id_third].
Proof. vm_compute. reflexivity. Qed.

(** ** The hardware address lookup *)

Section HardwareAddress.


Lemma GetMACAddress_range_Some (ifaces : list net.Interface) (r : list byte * option error) :
  GetMACAddress_range ifaces = Some r
  <-> exists k iface,
        ifaces !! k = Some iface
        /\ net.Name iface <> "lo"%string
        /\ (forall k' iface', (k' < k)%nat -> ifaces !! k' = Some iface' ->
              net.Name iface' = "lo"%string)
        /\ r = (net.HardwareAddr iface, None).
Proof.
  induction ifaces as [|first rest IH]; cbn.
  - split; [discriminate|]. intros (k & iface & Hk & _). discriminate.
  - destruct (String.eqb_spec (net.Name first) "lo") as [Heq|Hne]; cbn.
    + rewrite IH. split.
      * intros (k & iface & Hk & Hname & Hbefore & Hr).
        exists (S k), iface. repeat split; try assumption.
        intros [|k'] iface' Hlt Hk'; cbn in Hk'.
        -- now injection Hk' as <-.
        -- apply (Hbefore k'); [lia|exact Hk'].
      * intros (k & iface & Hk & Hname & Hbefore & Hr).
        destruct k as [|k]; cbn in Hk.
        -- injection Hk as <-. contradiction.
        -- exists k, iface. repeat split; try assumption.
           intros k' iface' Hlt Hk'. apply (Hbefore (S k')); [lia|exact Hk'].
    + split.
      * intros Hr. injection Hr as <-. exists 0%nat, first.
        repeat split; [assumption|]. intros k' iface' Hlt. lia.
      * intros (k & iface & Hk & Hname & Hbefore & Hr).
        destruct k as [|k]; cbn in Hk.
        -- injection Hk as <-. now subst r.
        -- exfalso. apply Hne. apply (Hbefore 0%nat); [lia|reflexivity].
Qed.

End HardwareAddress.



(** C10: GetMACAddress looks at nothing but whether the name is literally
    "lo", and hands back the address of the interface it picks as it is.  So
    it reports success with an empty address when the first interface not
    named "lo" has none, it picks the loopback interface itself when that is
    named "lo0", and it reports success with an address that is not 6 bytes
    long. *)
Theorem GetMACAddress_no_validation :
  (forall index mtu name hw flags rest,
     GetMACAddress
       ({| net.Index := index; net.MTU := mtu; net.Name := name;
           net.HardwareAddr := hw; net.Flags := flags |} :: rest, None)
     = if String.eqb name "lo" then GetMACAddress (rest, None) else (hw, None))
  /\ GetMACAddress ([lo; tun0; eth0], None) = ([], None)
  /\ (GetMACAddress ([lo0; eth0], None) = (net.HardwareAddr lo0, None)
      /\ net.is_loopback lo0 = true
      /\ net.HardwareAddr lo0 = [])
  /\ (exists hw, GetMACAddress ([lo; ib0], None) = (hw, None) /\ length hw = 20%nat).
Proof.
  split; [|split; [|split]].
  - intros index mtu name hw flags rest. unfold GetMACAddress. cbn.
    destruct (String.eqb name "lo"); reflexivity.
  - reflexivity.
  - repeat split.
  - eexists. split; reflexivity.
Qed.

(** ** The batch coordinator *)

Section Batch.

Variables (hw : list byte) (n : nat) (G : Z).

Lemma identifier_iteration (p : producer) (now : Z) :
  pc (iteration p now)
    = Sending (time.UnixNano now) (identifier (mac p) (time.UnixNano now)).
Proof. rewrite iteration_eq. reflexivity. Qed.

Lemma fields_iteration (p : producer) (now : Z) :
  (routineID (iteration p now), resultChan (iteration p now), mac (iteration p now))
    = (routineID p, resultChan p, mac p).
Proof. rewrite iteration_eq. reflexivity. Qed.

Lemma length_identifier (m : list byte) (t : Z) : length (identifier m t) = 16%nat.
Proof. unfold identifier. rewrite length_app, !length_PutUint64. reflexivity. Qed.

Lemma GetUnixNanoFromID_identifier (m : list byte) (t : Z) :
  is_int64 t -> GetUnixNanoFromID (identifier m t) = Returns t.
Proof.
  intros Ht. rewrite GetUnixNanoFromID_eq, length_identifier. cbn [Nat.leb].
  unfold identifier. rewrite take_app_length' by reflexivity.
  rewrite le_uint_PutUint64, to_int64_to_uint64 by exact Ht. reflexivity.
Qed.

Lemma crew_S (count : nat) :
  crew hw (S count) = crew hw count ++ [(Z.of_nat count, 0%nat, hw)].
Proof. unfold crew. rewrite seq_S, fmap_app. reflexivity. Qed.

Lemma length_crew (count : nat) : length (crew hw count) = count.
Proof. unfold crew. rewrite length_fmap. apply length_seq. Qed.

(** A producer of the crew: its index is its position, its channel is
    channel 0, its hardware address is [hw]. *)
Lemma workers_lookup (w : world) (count k : nat) (p : producer) :
  workers w = crew hw count -> producers w !! k = Some p ->
  routineID p = Z.of_nat k /\ resultChan p = 0%nat /\ mac p = hw /\ (k < count)%nat.
Proof.
  intros Hw Hk.
  assert (Hl : workers w !! k = Some (routineID p, resultChan p, mac p)).
  { unfold workers. rewrite list_lookup_fmap, Hk. reflexivity. }
  rewrite Hw in Hl. unfold crew in Hl. rewrite list_lookup_fmap in Hl.
  destruct (seq 0 count !! k) as [k'|] eqn:Hs; [|discriminate].
  apply lookup_seq in Hs as [-> Hlt]. cbn in Hl. injection Hl as -> -> ->. auto.
Qed.

(** Replacing a producer by one with the same three arguments. *)
Lemma workers_insert (l : list producer) (k : nat) (p p' : producer) :
  l !! k = Some p ->
  (routineID p', resultChan p', mac p') = (routineID p, resultChan p, mac p) ->
  (fun p => (routineID p, resultChan p, mac p)) <$> <[k := p']> l
    = (fun p => (routineID p, resultChan p, mac p)) <$> l.
Proof.
  intros Hk Heq. rewrite list_fmap_insert, Heq.
  apply list_insert_id. rewrite list_lookup_fmap, Hk. reflexivity.
Qed.

Lemma main_producer_step (k : nat) (now : Z) (w : world) :
  main (producer_step k now w) = main w.
Proof.
  unfold producer_step.
  destruct (producers w !! k) as [p|]; [|reflexivity].
  destruct (pc p); [reflexivity|].
  destruct (chans w !! resultChan p) as [ch|]; [|reflexivity].
  destruct (Z.of_nat (length (buf ch)) <? cap ch); reflexivity.
Qed.

Lemma recv_log_producer_step (k : nat) (now : Z) (w : world) :
  recv_log (producer_step k now w) = recv_log w.
Proof.
  unfold producer_step.
  destruct (producers w !! k) as [p|]; [|reflexivity].
  destruct (pc p); [reflexivity|].
  destruct (chans w !! resultChan p) as [ch|]; [|reflexivity].
  destruct (Z.of_nat (length (buf ch)) <? cap ch); reflexivity.
Qed.

Lemma workers_producer_step (k : nat) (now : Z) (w : world) :
  workers (producer_step k now w) = workers w.
Proof.
  unfold producer_step, workers.
  destruct (producers w !! k) as [p|] eqn:Hk; [|reflexivity].
  destruct (pc p) eqn:Hpc; cbn [producers].
  - apply (workers_insert _ _ p); [exact Hk|apply fields_iteration].
  - destruct (chans w !! resultChan p) as [ch|]; [|reflexivity].
    destruct (Z.of_nat (length (buf ch)) <? cap ch); [|reflexivity].
    cbn [producers]. apply (workers_insert _ _ p); [exact Hk|reflexivity].
Qed.

(** A step of a producer keeps the invariant. *)
Lemma inv_producer_step (k : nat) (now : Z) (w : world) :
  inv hw n G w -> inv hw n G (producer_step k now w).
Proof.
  intros Hinv.
  destruct (producers w !! k) as [p|] eqn:Hk.
  2:{ unfold producer_step. rewrite Hk. exact Hinv. }
  destruct Hinv as [Hphase Hchan Hpcs Hsent Hfifo Hrecv].
  (* the phase has producers, hence the channel *)
  assert (Hcrew : exists count, workers w = crew hw count
                   /\ exists q, chans w = [ {| cap := 128 * G; buf := q |} ]).
  { unfold phase_ok, chan_ok in *.
    destruct (main w); try (destruct Hphase as (_ & Hnil & _); rewrite Hnil in Hk;
                            discriminate).
    - destruct Hphase as (_ & _ & Hw & _). eauto.
    - destruct Hphase as (_ & _ & Hw & _). eauto.
    - destruct Hphase as (_ & Hw & _). eauto. }
  destruct Hcrew as (count & Hw & q & Hq).
  destruct (workers_lookup w count k p Hw Hk) as (Hrid & Hch & Hmac & Hlt).
  assert (Hphase' : phase_ok hw n G (producer_step k now w)).
  { unfold phase_ok in *.
    rewrite main_producer_step, workers_producer_step, recv_log_producer_step.
    destruct (main w); try exact Hphase.
    all: destruct Hphase as (_ & Hnil & _); rewrite Hnil in Hk; discriminate. }
  unfold producer_step in *. rewrite Hk in *.
  destruct (pc p) as [|timestamp value] eqn:Hpc.
  - (* the iteration up to the send *)
    constructor; cbn [producers send_log recv_log chans main]; try assumption.
    apply Forall_insert; [exact Hpcs|].
    unfold pc_ok. rewrite identifier_iteration, Hmac.
    split; [apply to_int64_range|reflexivity].
  - (* the send *)
    rewrite Hch, Hq in *. cbn [lookup list_lookup] in *.
    cbn [buf cap] in *.
    destruct (Z.of_nat (length q) <? 128 * G).
    2:{ constructor; assumption. }
    assert (Hwf : well_formed hw timestamp value).
    { rewrite Forall_lookup in Hpcs. specialize (Hpcs k p Hk).
      unfold pc_ok in Hpcs. rewrite Hpc in Hpcs. exact Hpcs. }
    constructor; cbn [producers send_log recv_log chans main]; try assumption.
    + unfold chan_ok in *. cbn [main chans].
      destruct (main w); try (exfalso; congruence); cbn; eexists; reflexivity.
    + apply Forall_insert; [exact Hpcs|]. unfold pc_ok. cbn. exact I.
    + apply Forall_app. split; [exact Hsent|]. constructor; [exact Hwf|constructor].
    + unfold queue in *. rewrite Hq in Hfifo. cbn [chans buf] in *.
      rewrite fmap_app, Hfifo. cbn. rewrite <- app_assoc. reflexivity.
Qed.

Lemma inv_init : inv hw n G init.
Proof.
  constructor; cbn; auto.
Qed.

(** A step of the caller keeps the invariant. *)
Lemma inv_main_step (w : world) :
  inv hw n G w -> inv hw n G (main_step hw n G w).
Proof.
  intros [Hphase Hchan Hpcs Hsent Hfifo Hrecv].
  unfold main_step. unfold phase_ok, chan_ok in Hphase, Hchan.
  destruct (main w) as [|ids results r|ids results i|ids|p] eqn:Hmain.
  - (* entry: the slice and the channel are made *)
    destruct Hphase as (Hch & Hpr & Hrl & Hsl).
    destruct (Z.ltb_spec (128 * G) 0) as [Hneg|Hpos].
    + constructor; unfold phase_ok, chan_ok; cbn; auto.
      repeat split; auto. lia.
    + constructor; unfold phase_ok, chan_ok, queue, workers in *;
        cbn [main chans producers send_log recv_log]; rewrite ?Hch, ?Hpr, ?Hrl, ?Hsl;
        cbn; auto.
      * repeat split; auto; lia.
      * eexists. reflexivity.
  - (* the spawn loop *)
    destruct Hphase as (-> & Hr & Hw & Hids & Hrl).
    destruct (Z.ltb_spec r G) as [Hlt|Hge].
    + constructor; unfold phase_ok, chan_ok, queue in *;
        cbn [main chans producers send_log recv_log]; auto.
      * repeat split; auto; try lia.
        unfold workers in *. cbn [producers]. rewrite fmap_app, Hw. cbn.
        replace (Z.to_nat (r + 1)) with (S (Z.to_nat r)) by lia.
        rewrite crew_S, Z2Nat.id by lia. reflexivity.
      * apply Forall_app. split; [exact Hpcs|]. repeat constructor.
    + assert (r = G) as -> by lia.
      constructor; unfold phase_ok, chan_ok, queue in *;
        cbn [main chans producers send_log recv_log]; auto.
      repeat split; auto; try lia.
      * rewrite Hrl. reflexivity.
      * rewrite Hrl, Nat.sub_0_r. exact Hids.
  - (* the drain loop *)
    destruct Hphase as (-> & HG & Hw & Hi & Hlen & Hids).
    destruct Hchan as [q Hq].
    destruct (Nat.ltb_spec i n) as [Hlt|Hge].
    + rewrite Hq. cbn [lookup list_lookup].
      destruct q as [|v q].
      * constructor; unfold phase_ok, chan_ok; rewrite ?Hmain; eauto 10.
      * assert (Hlen_ids : length ids = n).
        { rewrite Hids, length_app, length_fmap, length_replicate. lia. }
        rewrite assign_of_nat by lia.
        constructor; unfold phase_ok, chan_ok, queue in *;
          cbn [main chans producers send_log recv_log]; auto.
        -- repeat split; auto; try lia.
           ++ rewrite length_app. cbn. lia.
           ++ rewrite Hids, fmap_app. cbn.
              rewrite insert_app_r_alt by (rewrite length_fmap; lia).
              rewrite length_fmap, Hlen, Nat.sub_diag.
              replace (n - i)%nat with (S (n - S i)) by lia. cbn.
              rewrite <- app_assoc. reflexivity.
        -- cbn. eexists. reflexivity.
        -- rewrite Hq in Hfifo. cbn in *. rewrite Hfifo, fmap_app, <- app_assoc.
           reflexivity.
        -- apply Forall_app. split; [exact Hrecv|]. repeat constructor.
    + assert (i = n) as -> by lia.
      constructor; unfold phase_ok, chan_ok, queue in *;
        cbn [main chans producers send_log recv_log]; eauto.
      repeat split; auto.
      rewrite Hids, Nat.sub_diag. cbn. apply app_nil_r.
  - constructor; unfold phase_ok, chan_ok; rewrite ?Hmain; auto.
  - constructor; unfold phase_ok, chan_ok; rewrite ?Hmain; auto.
Qed.

Lemma inv_step (e : event) (w : world) :
  inv hw n G w -> inv hw n G (step hw n G e w).
Proof. destruct e; [apply inv_main_step|apply inv_producer_step]. Qed.

Lemma inv_run (schedule : list event) (w : world) :
  inv hw n G w -> inv hw n G (run hw n G schedule w).
Proof.
  revert w. induction schedule as [|e schedule IH]; intros w Hinv; cbn.
  - exact Hinv.
  - apply IH, inv_step, Hinv.
Qed.

Lemma run_app (s1 s2 : list event) (w : world) :
  run hw n G (s1 ++ s2) w = run hw n G s2 (run hw n G s1 w).
Proof. unfold run. apply fold_left_app. Qed.

(** Every state the program reaches has the invariant. *)
Lemma inv_reachable (schedule : list event) : inv hw n G (run hw n G schedule init).
Proof. apply inv_run, inv_init. Qed.

(** *** Progress: whatever happened so far, the call can still return *)







(** *** The spawn loop runs to its end on the caller's own steps *)





End Batch.





(** X19: the identifiers of a batch are what producers build: each is the
    identifier of some int64 timestamp and the hardware address of the
    call, and decodes to that timestamp. *)
Corollary GenerateNIDs_identifiers_decode (hw : list byte) (n : nat) (CPUCount : Z)
    (schedule : list event) (ids : list (list byte)) :
  GenerateNIDs hw n CPUCount schedule = Some ids ->
  Forall
    (fun id => exists t,
       is_int64 t /\ id = identifier hw t /\ GetUnixNanoFromID id = Returns t)
    ids.
Proof.
  intros Hret. unfold GenerateNIDs in Hret.
  destruct (inv_reachable hw n CPUCount schedule) as [Hphase _ _ Hsent Hfifo _].
  unfold phase_ok in Hphase.
  destruct (main (run hw n CPUCount schedule init)) as [| | |ids'|]; try discriminate.
  injection Hret as ->. destruct Hphase as (_ & _ & Hlen & Hids).
  assert (Htake : ids = take n (snd <$> send_log (run hw n CPUCount schedule init))).
  { rewrite Hfifo, <- Hids. rewrite take_app_length'; [reflexivity|].
    rewrite Hids, length_fmap. lia. }
  rewrite Htake. apply Forall_take, Forall_fmap.
  eapply Forall_impl; [exact Hsent|].
  intros [[k t] v] [Ht Hv]. cbn in *. exists t. rewrite Hv.
  split; [exact Ht|]. split; [reflexivity|].
  apply GetUnixNanoFromID_identifier, Ht.
Qed.

(** * Further properties of the code *)

(** ** GetUnixNanoFromID beyond well-formed identifiers *)

Section CodecMore.

Lemma to_uint64_to_int64 (v : Z) : to_uint64 (to_int64 v) = to_uint64 v.
Proof.
  unfold to_int64. pose proof (to_uint64_range v) as Hr.
  destruct (Z.ltb_spec (to_uint64 v) two63).
  - apply to_uint64_id, Hr.
  - rewrite (to_uint64_mod (to_uint64 v - two64)).
    replace (to_uint64 v - two64) with (to_uint64 v + (-1) * two64) by lia.
    rewrite Z.mod_add by (unfold two64; lia).
    apply Z.mod_small, Hr.
Qed.

Lemma byte_of_Z_of_byte (x : byte) (r : Z) : byte_of_Z (Z_of_byte x + 256 * r) = x.
Proof.
  unfold byte_of_Z. pose proof (Z_of_byte_range x) as Hx.
  change 255 with (Z.ones 8). rewrite Z.land_ones by lia.
  replace ((Z_of_byte x + 256 * r) mod 2 ^ 8) with (Z_of_byte x).
  - unfold Z_of_byte. rewrite N2Z.id, Byte.of_to_N. reflexivity.
  - symmetry. rewrite Z.mul_comm. change (2 ^ 8) with 256.
    rewrite Z.mod_add by lia. apply Z.mod_small, Hx.
Qed.

Lemma le_uint_range (b : list byte) : 0 <= le_uint b < 256 ^ Z.of_nat (length b).
Proof.
  induction b as [|x b IH]; cbn [le_uint length]; [cbn; lia|].
  pose proof (Z_of_byte_range x). rewrite Nat2Z.inj_succ, Z.pow_succ_r by lia. lia.
Qed.

(** Writing out the integer that was read gives the bytes back. *)
Lemma put_le_le_uint (b : list byte) : put_le (length b) (le_uint b) = b.
Proof.
  induction b as [|x b IH]; cbn [le_uint length put_le]; [reflexivity|].
  rewrite byte_of_Z_of_byte. f_equal.
  rewrite Z.shiftr_div_pow2 by lia. change (2 ^ 8) with 256.
  pose proof (Z_of_byte_range x).
  replace ((Z_of_byte x + 256 * le_uint b) / 256) with (le_uint b); [exact IH|].
  rewrite Z.add_comm, Z.mul_comm, Z.div_add_l by lia.
  rewrite (Z.div_small (Z_of_byte x)) by lia. lia.
Qed.

Lemma PutUint64_decoded (b : list byte) :
  length b = 8%nat -> binary.PutUint64 (to_int64 (le_uint b)) = b.
Proof.
  intros Hlen.
  rewrite <- PutUint64_to_uint64, to_uint64_to_int64, PutUint64_to_uint64.
  rewrite <- put_le_8, <- Hlen. apply put_le_le_uint.
Qed.

Lemma decode_injective (a b : list byte) :
  (8 <= length a)%nat -> (8 <= length b)%nat ->
  GetUnixNanoFromID a = GetUnixNanoFromID b ->
  take 8 a = take 8 b.
Proof.
  intros Ha Hb Heq. rewrite !GetUnixNanoFromID_eq in Heq.
  destruct (Nat.leb_spec 8 (length a)); [|lia].
  destruct (Nat.leb_spec 8 (length b)); [|lia].
  injection Heq as Heq.
  rewrite <- (PutUint64_decoded (take 8 a)) by (rewrite length_take; lia).
  rewrite <- (PutUint64_decoded (take 8 b)) by (rewrite length_take; lia).
  now rewrite Heq.
Qed.

End CodecMore.

(** X1: GetUnixNanoFromID looks at the first 8 bytes of its input and at
    nothing else: the result is that of the 8-byte prefix, and whatever is
    appended to an input of at least 8 bytes does not change it. *)
Theorem GetUnixNanoFromID_reads_8_bytes (id extra : list byte) :
  GetUnixNanoFromID id = GetUnixNanoFromID (take 8 id)
  /\ ((8 <= length id)%nat ->
      GetUnixNanoFromID (id ++ extra) = GetUnixNanoFromID id).
Proof.
  rewrite !GetUnixNanoFromID_eq. split.
  - rewrite length_take, take_take.
    destruct (Nat.leb_spec 8 (length id)) as [Hlen|Hlen].
    + replace (8 `min` length id)%nat with 8%nat by lia. reflexivity.
    + destruct (Nat.leb_spec 8 (8 `min` length id)%nat); [lia|reflexivity].
  - intros Hlen. rewrite length_app, take_app_le by lia.
    destruct (Nat.leb_spec 8 (length id + length extra)); [|lia].
    destruct (Nat.leb_spec 8 (length id)); [reflexivity|lia].
Qed.

Lemma GetUnixNanoFromID_reads_8_bytes_witness :
  GetUnixNanoFromID (test_id ++ [xff; xff]) = GetUnixNanoFromID test_id.
Proof.
  apply (proj2 (GetUnixNanoFromID_reads_8_bytes test_id [xff; xff])). cbn. lia.
Defined.

(** X2: decoding then encoding: when GetUnixNanoFromID returns [t] on an input
    of at least 8 bytes, writing [t] the way GenerateIDs writes its
    timestamp gives the first 8 bytes of the input back. *)
Theorem timestamp_reencodes (id : list byte) (t : Z) :
  (8 <= length id)%nat ->
  GetUnixNanoFromID id = Returns t ->
  binary.Write Buffer.new (binary.int64 t) = (take 8 id, None).
Proof.
  intros Hlen Hget. rewrite GetUnixNanoFromID_eq in Hget.
  destruct (Nat.leb_spec 8 (length id)); [|lia]. injection Hget as <-.
  rewrite Write_int64. unfold Buffer.new. cbn [app].
  rewrite PutUint64_decoded; [reflexivity|]. rewrite length_take. lia.
Qed.

Lemma timestamp_reencodes_witness :
  binary.Write Buffer.new (binary.int64 1494590520160966782) = (take 8 test_id, None).
Proof.
  apply (timestamp_reencodes test_id 1494590520160966782).
  - cbn. lia.
  - vm_compute. reflexivity.
Defined.

(** X3: two inputs of at least 8 bytes have the same timestamp only when their
    first 8 bytes are the same. *)
Theorem same_timestamp_same_prefix (a b : list byte) :
  (8 <= length a)%nat -> (8 <= length b)%nat ->
  GetUnixNanoFromID a = GetUnixNanoFromID b ->
  take 8 a = take 8 b.
Proof. apply decode_injective. Qed.

Lemma same_timestamp_same_prefix_witness :
  take 8 test_id_17 = take 8 test_id.
Proof.
  apply (same_timestamp_same_prefix test_id_17 test_id).
  - cbn. lia.
  - cbn. lia.
  - vm_compute. reflexivity.
Defined.

(** ** The comparator as a sort.Interface *)

Section ComparatorMore.

Lemma index_in_range {A : Type} (s : list A) (i : Z) :
  0 <= i < Z.of_nat (length s) ->
  exists x, s !! Z.to_nat i = Some x /\ index s i = Returns x.
Proof.
  intros Hi. destruct (lookup_lt_is_Some_2 s (Z.to_nat i) ltac:(lia)) as [x Hx].
  exists x. split; [exact Hx|].
  rewrite <- (Z2Nat.id i) by lia. apply index_of_nat, Hx.
Qed.

Lemma index_out_of_range {A : Type} (s : list A) (i : Z) :
  ~ 0 <= i < Z.of_nat (length s) ->
  index s i = Panics (IndexOutOfRange i (length s)).
Proof.
  intros Hi. unfold index. destruct (Z.ltb_spec i 0); [reflexivity|].
  destruct (s !! Z.to_nat i) as [x|] eqn:Hx; [|reflexivity].
  apply lookup_lt_Some in Hx. lia.
Qed.

Lemma Less_in_range (a : ByIDCreationTime.t) (i j : Z) :
  0 <= i < ByIDCreationTime.Len a -> 0 <= j < ByIDCreationTime.Len a ->
  exists x y,
    a !! Z.to_nat i = Some x /\ a !! Z.to_nat j = Some y
    /\ ByIDCreationTime.Less a i j = Returns (timestamp_of x <? timestamp_of y).
Proof.
  unfold ByIDCreationTime.Len. intros Hi Hj.
  destruct (index_in_range a i Hi) as (x & Hx & _).
  destruct (index_in_range a j Hj) as (y & Hy & _).
  exists x, y. split; [exact Hx|]. split; [exact Hy|].
  rewrite <- (Z2Nat.id i), <- (Z2Nat.id j) by lia.
  apply Less_of_nat; assumption.
Qed.

Lemma Swap_in_range (a : ByIDCreationTime.t) (i j : Z) :
  0 <= i < ByIDCreationTime.Len a -> 0 <= j < ByIDCreationTime.Len a ->
  exists x y,
    a !! Z.to_nat i = Some x /\ a !! Z.to_nat j = Some y
    /\ ByIDCreationTime.Swap a i j
       = Returns (<[Z.to_nat j := x]> (<[Z.to_nat i := y]> a)).
Proof.
  unfold ByIDCreationTime.Len. intros Hi Hj.
  destruct (index_in_range a i Hi) as (x & Hx & _).
  destruct (index_in_range a j Hj) as (y & Hy & _).
  exists x, y. split; [exact Hx|]. split; [exact Hy|].
  rewrite <- (Z2Nat.id i), <- (Z2Nat.id j) by lia.
  rewrite !Nat2Z.id. apply Swap_of_nat; assumption.
Qed.

Lemma delete_insert_same {A : Type} (l : list A) (i : nat) (x : A) :
  delete i (<[i := x]> l) = delete i l.
Proof.
  revert i. induction l as [|z l IH]; intros [|i]; cbn; try reflexivity.
  f_equal. apply IH.
Qed.

(** Exchanging two positions of a list rearranges it. *)
Lemma exchange_Permutation {A : Type} (l : list A) (i j : nat) (x y : A) :
  l !! i = Some x -> l !! j = Some y ->
  <[j := x]> (<[i := y]> l) ≡ₚ l.
Proof.
  revert i j. induction l as [|z l IH]; intros i j Hi Hj; [discriminate|].
  destruct i as [|i], j as [|j]; cbn in *.
  - injection Hi as ->. injection Hj as ->. reflexivity.
  - injection Hi as ->.
    assert (Hx : <[j := x]> l !! j = Some x)
      by (apply list_lookup_insert_eq; eapply lookup_lt_Some; eassumption).
    rewrite (delete_Permutation l j y Hj) at 2.
    rewrite (delete_Permutation _ j x Hx).
    rewrite (delete_insert_same l j x). apply Permutation_swap.
  - injection Hj as ->.
    assert (Hy : <[i := y]> l !! i = Some y)
      by (apply list_lookup_insert_eq; eapply lookup_lt_Some; eassumption).
    rewrite (delete_Permutation l i x Hi) at 2.
    rewrite (delete_Permutation _ i y Hy).
    rewrite (delete_insert_same l i y). apply Permutation_swap.
  - constructor. apply IH; assumption.
Qed.

Lemma Z_range_dec (i : Z) (len : nat) :
  {0 <= i < Z.of_nat len} + {~ 0 <= i < Z.of_nat len}.
Proof.
  destruct (Z_le_dec 0 i); [|right; lia].
  destruct (Z_lt_dec i (Z.of_nat len)); [left; lia|right; lia].
Qed.

End ComparatorMore.

(** X4: on the positions of a slice, Less is a strict weak order: no element
    comes before itself, two elements are never each before the other,
    before is transitive, and so is being unordered. *)
Theorem Less_strict_weak_order (a : ByIDCreationTime.t) (i j k : Z) :
  0 <= i < ByIDCreationTime.Len a ->
  0 <= j < ByIDCreationTime.Len a ->
  0 <= k < ByIDCreationTime.Len a ->
  ByIDCreationTime.Less a i i = Returns false
  /\ (ByIDCreationTime.Less a i j = Returns true ->
      ByIDCreationTime.Less a j i = Returns false)
  /\ (ByIDCreationTime.Less a i j = Returns true ->
      ByIDCreationTime.Less a j k = Returns true ->
      ByIDCreationTime.Less a i k = Returns true)
  /\ (ByIDCreationTime.Less a i j = Returns false ->
      ByIDCreationTime.Less a j i = Returns false ->
      ByIDCreationTime.Less a j k = Returns false ->
      ByIDCreationTime.Less a k j = Returns false ->
      ByIDCreationTime.Less a i k = Returns false
      /\ ByIDCreationTime.Less a k i = Returns false).
Proof.
  intros Hi Hj Hk.
  destruct (Less_in_range a i i Hi Hi) as (x & x' & Hx & Hx' & Hii).
  rewrite Hx in Hx'. injection Hx' as <-.
  destruct (Less_in_range a i j Hi Hj) as (x1 & y & Hx1 & Hy & Hij).
  rewrite Hx in Hx1. injection Hx1 as <-.
  destruct (Less_in_range a j i Hj Hi) as (y1 & x1 & Hy1 & Hx1 & Hji).
  rewrite Hx in Hx1. injection Hx1 as <-. rewrite Hy in Hy1. injection Hy1 as <-.
  destruct (Less_in_range a j k Hj Hk) as (y1 & z & Hy1 & Hz & Hjk).
  rewrite Hy in Hy1. injection Hy1 as <-.
  destruct (Less_in_range a k j Hk Hj) as (z1 & y1 & Hz1 & Hy1 & Hkj).
  rewrite Hy in Hy1. injection Hy1 as <-. rewrite Hz in Hz1. injection Hz1 as <-.
  destruct (Less_in_range a i k Hi Hk) as (x1 & z1 & Hx1 & Hz1 & Hik).
  rewrite Hx in Hx1. injection Hx1 as <-. rewrite Hz in Hz1. injection Hz1 as <-.
  destruct (Less_in_range a k i Hk Hi) as (z1 & x1 & Hz1 & Hx1 & Hki).
  rewrite Hx in Hx1. injection Hx1 as <-. rewrite Hz in Hz1. injection Hz1 as <-.
  rewrite Hii, Hij, Hji, Hjk, Hkj, Hik, Hki.
  repeat split.
  - f_equal. apply Z.ltb_irrefl.
  - intros H. injection H as H. apply Z.ltb_lt in H. f_equal. apply Z.ltb_ge. lia.
  - intros H1 H2. injection H1 as H1. injection H2 as H2.
    apply Z.ltb_lt in H1, H2. f_equal. apply Z.ltb_lt. lia.
  - injection H as H. injection H0 as H0. injection H1 as H1. injection H2 as H2.
    apply Z.ltb_ge in H, H0, H1, H2. f_equal. apply Z.ltb_ge. lia.
  - injection H as H. injection H0 as H0. injection H1 as H1. injection H2 as H2.
    apply Z.ltb_ge in H, H0, H1, H2. f_equal. apply Z.ltb_ge. lia.
Qed.

Lemma Less_strict_weak_order_witness :
  ByIDCreationTime.Less [test_id_second; test_id_third; test_id] 2 2 = Returns false
  /\ (ByIDCreationTime.Less [test_id_second; test_id_third; test_id] 2 0 = Returns true ->
      ByIDCreationTime.Less [test_id_second; test_id_third; test_id] 0 2 = Returns false)
  /\ (ByIDCreationTime.Less [test_id_second; test_id_third; test_id] 2 0 = Returns true ->
      ByIDCreationTime.Less [test_id_second; test_id_third; test_id] 0 1 = Returns true ->
      ByIDCreationTime.Less [test_id_second; test_id_third; test_id] 2 1 = Returns true)
  /\ (ByIDCreationTime.Less [test_id_second; test_id_third; test_id] 2 0 = Returns false ->
      ByIDCreationTime.Less [test_id_second; test_id_third; test_id] 0 2 = Returns false ->
      ByIDCreationTime.Less [test_id_second; test_id_third; test_id] 0 1 = Returns false ->
      ByIDCreationTime.Less [test_id_second; test_id_third; test_id] 1 0 = Returns false ->
      ByIDCreationTime.Less [test_id_second; test_id_third; test_id] 2 1 = Returns false
      /\ ByIDCreationTime.Less [test_id_second; test_id_third; test_id] 1 2 = Returns false).
Proof.
  apply (Less_strict_weak_order [test_id_second; test_id_third; test_id] 2 0 1);
    vm_compute; split; congruence.
Defined.

(** X5: the digest never breaks a tie: two identifiers of at least 8 bytes are
    left unordered by Less, in both directions, exactly when their first 8
    bytes are the same, whatever follows. *)
Theorem Less_ties (a : ByIDCreationTime.t) (i j : nat) (x y : list byte) :
  a !! i = Some x -> a !! j = Some y ->
  (8 <= length x)%nat -> (8 <= length y)%nat ->
  (ByIDCreationTime.Less a (Z.of_nat i) (Z.of_nat j) = Returns false
   /\ ByIDCreationTime.Less a (Z.of_nat j) (Z.of_nat i) = Returns false)
  <-> take 8 x = take 8 y.
Proof.
  intros Hx Hy Hlx Hly.
  rewrite (Less_of_nat a i j x y Hx Hy), (Less_of_nat a j i y x Hy Hx). split.
  - intros [H1 H2]. injection H1 as H1. injection H2 as H2.
    apply Z.ltb_ge in H1, H2.
    apply decode_injective; [exact Hlx|exact Hly|].
    rewrite !GetUnixNanoFromID_timestamp_of. f_equal. lia.
  - intros Heq.
    assert (Ht : timestamp_of x = timestamp_of y).
    { unfold timestamp_of. rewrite !GetUnixNanoFromID_eq.
      destruct (Nat.leb_spec 8 (length x)); [|lia].
      destruct (Nat.leb_spec 8 (length y)); [|lia]. now rewrite Heq. }
    rewrite Ht, Z.ltb_irrefl. auto.
Qed.

Lemma Less_ties_witness :
  (ByIDCreationTime.Less [test_id; test_id_17] (Z.of_nat 0) (Z.of_nat 1) = Returns false
   /\ ByIDCreationTime.Less [test_id; test_id_17] (Z.of_nat 1) (Z.of_nat 0) = Returns false)
  <-> take 8 test_id = take 8 test_id_17.
Proof.
  apply (Less_ties [test_id; test_id_17] 0 1 test_id test_id_17);
    try reflexivity; cbn; lia.
Defined.

(** X6: Less and Swap panic exactly when one of their two indices is outside
    the slice; inside it they return. *)
Theorem Less_Swap_bounds (a : ByIDCreationTime.t) (i j : Z) :
  ((exists p, ByIDCreationTime.Less a i j = Panics p)
   <-> ~ (0 <= i < ByIDCreationTime.Len a /\ 0 <= j < ByIDCreationTime.Len a))
  /\ ((exists p, ByIDCreationTime.Swap a i j = Panics p)
      <-> ~ (0 <= i < ByIDCreationTime.Len a /\ 0 <= j < ByIDCreationTime.Len a)).
Proof.
  unfold ByIDCreationTime.Len.
  destruct (Z_range_dec i (length a)) as [Hi|Hi];
    destruct (Z_range_dec j (length a)) as [Hj|Hj].
  - destruct (Less_in_range a i j Hi Hj) as (x & y & _ & _ & HL).
    destruct (Swap_in_range a i j Hi Hj) as (x' & y' & _ & _ & HS).
    rewrite HL, HS. split; (split; [intros [p Hp]; discriminate|tauto]).
  - destruct (index_in_range a i Hi) as (x & _ & Hx).
    unfold ByIDCreationTime.Less, ByIDCreationTime.Swap.
    rewrite Hx, (index_out_of_range a j Hj). cbn [bind].
    rewrite GetUnixNanoFromID_timestamp_of. cbn [bind].
    split; (split; [tauto|intros _; eexists; reflexivity]).
  - destruct (index_in_range a j Hj) as (y & _ & Hy).
    unfold ByIDCreationTime.Less, ByIDCreationTime.Swap.
    rewrite Hy, (index_out_of_range a i Hi). cbn [bind].
    split; (split; [tauto|intros _; eexists; reflexivity]).
  - unfold ByIDCreationTime.Less, ByIDCreationTime.Swap.
    rewrite (index_out_of_range a i Hi), (index_out_of_range a j Hj). cbn [bind].
    split; (split; [tauto|intros _; eexists; reflexivity]).
Qed.

(** X7: Swap on two positions of the slice exchanges the two elements and
    touches nothing else: the length is kept, every other position keeps
    its element, and the result is a rearrangement of the slice. *)
Theorem Swap_exchanges (a : ByIDCreationTime.t) (i j : Z) :
  0 <= i < ByIDCreationTime.Len a -> 0 <= j < ByIDCreationTime.Len a ->
  exists a',
    ByIDCreationTime.Swap a i j = Returns a'
    /\ ByIDCreationTime.Len a' = ByIDCreationTime.Len a
    /\ a' !! Z.to_nat i = a !! Z.to_nat j
    /\ a' !! Z.to_nat j = a !! Z.to_nat i
    /\ (forall k, k <> Z.to_nat i -> k <> Z.to_nat j -> a' !! k = a !! k)
    /\ a' ≡ₚ a.
Proof.
  intros Hi Hj.
  destruct (Swap_in_range a i j Hi Hj) as (x & y & Hx & Hy & HS).
  unfold ByIDCreationTime.Len in *.
  pose proof (lookup_lt_Some _ _ _ Hx) as Hli.
  pose proof (lookup_lt_Some _ _ _ Hy) as Hlj.
  eexists. split; [exact HS|]. split; [|split; [|split; [|split]]].
  - rewrite !length_insert. reflexivity.
  - destruct (decide (Z.to_nat i = Z.to_nat j)) as [Heq|Hne].
    + rewrite Heq in *. rewrite list_lookup_insert_eq by (rewrite length_insert; lia).
      congruence.
    + rewrite list_lookup_insert_ne by congruence.
      rewrite list_lookup_insert_eq by lia. congruence.
  - rewrite list_lookup_insert_eq by (rewrite length_insert; lia). congruence.
  - intros k Hki Hkj. rewrite !list_lookup_insert_ne by congruence. reflexivity.
  - apply exchange_Permutation; assumption.
Qed.

Lemma Swap_exchanges_witness :
  exists a',
    ByIDCreationTime.Swap [test_id_second; test_id_third; test_id] 0 2 = Returns a'
    /\ ByIDCreationTime.Len a' = ByIDCreationTime.Len [test_id_second; test_id_third; test_id]
    /\ a' !! Z.to_nat 0 = [test_id_second; test_id_third; test_id] !! Z.to_nat 2
    /\ a' !! Z.to_nat 2 = [test_id_second; test_id_third; test_id] !! Z.to_nat 0
    /\ (forall k, k <> Z.to_nat 0 -> k <> Z.to_nat 2 ->
          a' !! k = [test_id_second; test_id_third; test_id] !! k)
    /\ a' ≡ₚ [test_id_second; test_id_third; test_id].
Proof.
  apply (Swap_exchanges [test_id_second; test_id_third; test_id] 0 2);
    vm_compute; split; congruence.
Defined.

(** X8: Swapping the same two positions twice gives the slice back. *)
Theorem Swap_twice (a a' : ByIDCreationTime.t) (i j : Z) :
  ByIDCreationTime.Swap a i j = Returns a' ->
  ByIDCreationTime.Swap a' i j = Returns a.
Proof.
  intros HS.
  destruct (Z_range_dec i (length a)) as [Hi|Hi];
    [destruct (Z_range_dec j (length a)) as [Hj|Hj]|].
  - destruct (Swap_in_range a i j Hi Hj) as (x & y & Hx & Hy & HS1).
    rewrite HS in HS1. injection HS1 as ->.
    pose proof (lookup_lt_Some _ _ _ Hx) as Hli.
    pose proof (lookup_lt_Some _ _ _ Hy) as Hlj.
    set (a' := <[Z.to_nat j := x]> (<[Z.to_nat i := y]> a)).
    assert (Hlen : length a' = length a) by (unfold a'; now rewrite !length_insert).
    assert (Hx' : a' !! Z.to_nat j = Some x).
    { unfold a'. apply list_lookup_insert_eq. rewrite length_insert. lia. }
    assert (Hy' : a' !! Z.to_nat i = Some (if decide (Z.to_nat i = Z.to_nat j)
                                           then x else y)).
    { unfold a'. destruct (decide (Z.to_nat i = Z.to_nat j)) as [Heq|Hne].
      - rewrite Heq. apply list_lookup_insert_eq. rewrite length_insert. lia.
      - rewrite list_lookup_insert_ne by congruence.
        apply list_lookup_insert_eq. lia. }
    destruct (Swap_in_range a' i j) as (u & v & Hu & Hv & HS2);
      [unfold ByIDCreationTime.Len; lia|unfold ByIDCreationTime.Len; lia|].
    rewrite HS2. f_equal. rewrite Hy' in Hu. rewrite Hx' in Hv.
    injection Hu as <-. injection Hv as <-.
    apply list_eq. intros k.
    destruct (decide (k = Z.to_nat j)) as [->|Hkj].
    + rewrite list_lookup_insert_eq by (rewrite length_insert; lia).
      destruct (decide (Z.to_nat i = Z.to_nat j)) as [Heq|Hne]; [|congruence].
      rewrite <- Heq in *. congruence.
    + rewrite list_lookup_insert_ne by congruence.
      destruct (decide (k = Z.to_nat i)) as [->|Hki].
      * rewrite list_lookup_insert_eq by lia. congruence.
      * rewrite list_lookup_insert_ne by congruence.
        unfold a'. rewrite !list_lookup_insert_ne by congruence. reflexivity.
  - exfalso. unfold ByIDCreationTime.Swap in HS.
    rewrite (index_out_of_range a j Hj) in HS. discriminate.
  - exfalso. unfold ByIDCreationTime.Swap in HS.
    destruct (index a j); [|discriminate]. cbn [bind] in HS.
    rewrite (index_out_of_range a i Hi) in HS. discriminate.
Qed.

Lemma Swap_twice_witness :
  ByIDCreationTime.Swap [test_id_third; test_id_second; test_id] 0 2
    = Returns [test_id; test_id_second; test_id_third].
Proof.
  apply (Swap_twice [test_id; test_id_second; test_id_third]
           [test_id_third; test_id_second; test_id] 0 2).
  vm_compute. reflexivity.
Defined.

(** ** What a producer's identifiers depend on *)

Section ProducerMore.

Lemma pc_iterations (p : producer) (clock : list Z) :
  pc <$> iterations p clock
  = (fun now => Sending (time.UnixNano now) (identifier (mac p) (time.UnixNano now)))
      <$> clock.
Proof.
  revert p. induction clock as [|now clock IH]; intros p; cbn [iterations fmap list_fmap].
  - reflexivity.
  - rewrite identifier_iteration. f_equal.
    rewrite IH. rewrite iteration_eq. reflexivity.
Qed.

Lemma sent_values_iterations (p : producer) (clock : list Z) :
  sent_value <$> iterations p clock
  = identifier (mac p) <$> (time.UnixNano <$> clock).
Proof.
  unfold sent_value.
  change (fun p => match pc p with Sending _ value => value | LoopTop => [] end)
    with ((fun s => match s with Sending _ value => value | LoopTop => [] end) ∘ pc).
  rewrite list_fmap_compose, pc_iterations, <- !list_fmap_compose.
  apply list_fmap_ext. intros k now _. reflexivity.
Qed.


Lemma identifier_injective (m : list byte) (t1 t2 : Z) :
  is_int64 t1 -> is_int64 t2 -> identifier m t1 = identifier m t2 -> t1 = t2.
Proof.
  intros H1 H2 Heq.
  pose proof (GetUnixNanoFromID_identifier m t1 H1) as G1.
  pose proof (GetUnixNanoFromID_identifier m t2 H2) as G2.
  rewrite Heq in G1. congruence.
Qed.

Lemma to_uint64_lxor (a b : Z) :
  to_uint64 (Z.lxor a b) = Z.lxor (to_uint64 a) (to_uint64 b).
Proof.
  unfold to_uint64. apply Z.bits_inj'. intros i _.
  rewrite !Z.land_spec, !Z.lxor_spec, !Z.land_spec.
  destruct (Z.testbit a i), (Z.testbit b i), (Z.testbit (two64 - 1) i); reflexivity.
Qed.

Lemma lxor_shiftr_range (h k : Z) :
  0 <= k -> is_uint64 h -> is_uint64 (Z.lxor h (Z.shiftr h k)).
Proof.
  intros Hk Hh.
  assert (Hs : is_uint64 (Z.shiftr h k)).
  { unfold is_uint64 in *. rewrite Z.shiftr_div_pow2 by exact Hk.
    assert (0 < 2 ^ k) by (apply Z.pow_pos_nonneg; lia). split.
    - apply Z.div_pos; lia.
    - apply Z.le_lt_trans with h; [|lia]. apply Z.div_le_upper_bound; nia. }
  rewrite <- (to_uint64_id h) at 1 by exact Hh.
  rewrite <- (to_uint64_id (Z.shiftr h k)) by exact Hs.
  rewrite <- to_uint64_lxor. apply to_uint64_range.
Qed.

(** The digest is a uint64. *)
Lemma Checksum64_range (input : list byte) : is_uint64 (xxhash.Checksum64 input).
Proof.
  unfold xxhash.Checksum64.
  destruct (if (32 <=? length input)%nat then _ else _) as [h0 rest].
  destruct (xxhash.tail8 _ _ _) as [h2 rest2].
  destruct (xxhash.tail4 _ _) as [h3 rest3].
  unfold xxhash.avalanche. cbv zeta.
  apply lxor_shiftr_range; [lia|apply to_uint64_range].
Qed.

End ProducerMore.

(** X9: what a producer sends follows the clock and nothing else: its k-th
    identifier is the one a producer freshly started with the same hardware
    address and worker index 0 would build from the k-th clock reading.
    Neither the worker index, nor the channel, nor the 28 bytes the entropy
    buffer starts with, nor any earlier iteration has a part in it. *)
Theorem identifiers_follow_the_clock (m : list byte) (r : Z) (c : nat) (clock : list Z) :
  pc <$> iterations (GenerateIDs m r c) clock
  = (fun now => pc (iteration (GenerateIDs m 0 0) now)) <$> clock.
Proof.
  rewrite pc_iterations. apply list_fmap_ext. intros k now _.
  rewrite identifier_iteration. reflexivity.
Qed.

(** X10: two iterations, of the same producer or of two producers with the same
    hardware address, send the same identifier exactly when they captured
    the same timestamp. *)
Theorem same_identifier_iff_same_timestamp (p q : producer) (now1 now2 : Z)
    (t1 t2 : Z) (v1 v2 : list byte) :
  mac p = mac q ->
  pc (iteration p now1) = Sending t1 v1 ->
  pc (iteration q now2) = Sending t2 v2 ->
  (v1 = v2 <-> t1 = t2).
Proof.
  intros Hm H1 H2. rewrite identifier_iteration in H1, H2.
  injection H1 as <- <-. injection H2 as <- <-. rewrite Hm. split.
  - apply identifier_injective; apply to_int64_range.
  - intros ->. reflexivity.
Qed.

Lemma same_identifier_iff_same_timestamp_witness :
  identifier sample_mac sample_now = identifier sample_mac sample_now
  <-> sample_now = sample_now.
Proof.
  apply (same_identifier_iff_same_timestamp
           (GenerateIDs sample_mac 0 0) (GenerateIDs sample_mac 1 0)
           sample_now sample_now); reflexivity.
Defined.

(** X11: a producer that never captures the same timestamp twice never sends
    the same identifier twice. *)
Theorem distinct_timestamps_distinct_identifiers (m : list byte) (r : Z) (c : nat)
    (clock : list Z) :
  NoDup (time.UnixNano <$> clock) ->
  NoDup (sent_value <$> iterations (GenerateIDs m r c) clock).
Proof.
  intros Hnd.
  rewrite sent_values_iterations. cbn [mac GenerateIDs].
  apply NoDup_fmap_2_strong; [|exact Hnd].
  intros t1 t2 Ht1 Ht2. apply list_elem_of_fmap in Ht1 as (n1 & -> & _).
  apply list_elem_of_fmap in Ht2 as (n2 & -> & _).
  apply identifier_injective; apply to_int64_range.
Qed.

Lemma distinct_timestamps_distinct_identifiers_witness :
  NoDup (sent_value <$> iterations (GenerateIDs sample_mac 0 0) [sample_now; sample_now + 1]).
Proof.
  apply (distinct_timestamps_distinct_identifiers sample_mac 0 0 [sample_now; sample_now + 1]).
  cbn [fmap list_fmap]. apply NoDup_cons. split.
  - intros H. apply list_elem_of_singleton in H. vm_compute in H. discriminate.
  - apply NoDup_singleton.
Defined.

(** X12: the second half of an identifier can be checked against the first:
    bytes 8 to 15, read as a little-endian unsigned integer, are the digest
    [hash.Sum64()], which is the XXH64 of bytes 0 to 7 followed by the
    hardware address. *)
Theorem digest_reads_back (m : list byte) (r : Z) (c : nat) (clock : list Z) :
  Forall
    (fun p => exists timestamp value,
       pc p = Sending timestamp value
       /\ binary.Uint64 (drop 8 value) = Returns (xxhash.Sum64 (hash p))
       /\ xxhash.Sum64 (hash p) = xxhash.Checksum64 (take 8 value ++ m))
    (iterations (GenerateIDs m r c) clock).
Proof.
  assert (Hgen : forall p, mac p = m ->
            Forall
              (fun p => exists timestamp value,
                 pc p = Sending timestamp value
                 /\ binary.Uint64 (drop 8 value) = Returns (xxhash.Sum64 (hash p))
                 /\ xxhash.Sum64 (hash p) = xxhash.Checksum64 (take 8 value ++ m))
              (iterations p clock)).
  { induction clock as [|now clock IH]; intros p Hm; cbn [iterations]; constructor.
    - rewrite iteration_eq. cbn -[binary.PutUint64 xxhash.Checksum64 take drop].
      eexists _, _. split; [reflexivity|].
      rewrite drop_app_length', take_app_length' by reflexivity.
      unfold xxhash.Sum64. cbn [xxhash.written]. rewrite Hm. split; [|reflexivity].
      rewrite <- (app_nil_r (binary.PutUint64 (xxhash.Checksum64 _))).
      rewrite Uint64_PutUint64. f_equal. apply to_uint64_id, Checksum64_range.
    - apply IH. rewrite iteration_eq. exact Hm. }
  apply Hgen. reflexivity.
Qed.

(** X13: when GetMACAddress fails and its error is dropped, as the tests do with
    [mac, _ := GetMACAddress()], the producers run on the nil address and
    hash the 8 timestamp bytes alone. *)
Theorem failed_lookup_hashes_timestamp_only (Interfaces : list net.Interface * option error)
    (r : Z) (c : nat) (now : Z) :
  NoSuitableInterface (GetMACAddress Interfaces) ->
  fst (GetMACAddress Interfaces) = []
  /\ hashed (iteration (GenerateIDs (fst (GetMACAddress Interfaces)) r c) now)
     = put_le 8 (time.UnixNano now).
Proof.
  intros Hfail.
  assert (Hnil : fst (GetMACAddress Interfaces) = []).
  { unfold NoSuitableInterface, GetMACAddress in *.
    destruct Interfaces as [ifaces [e|]]; [reflexivity|].
    destruct (GetMACAddress_range ifaces) as [res|] eqn:Hr; [|reflexivity].
    apply GetMACAddress_range_Some in Hr as (k & iface & _ & _ & _ & ->).
    cbn in Hfail. contradiction. }
  split; [exact Hnil|].
  rewrite Hnil, hashed_iteration. cbn [mac GenerateIDs]. apply app_nil_r.
Qed.

Lemma failed_lookup_hashes_timestamp_only_witness :
  fst (GetMACAddress ([lo], None)) = []
  /\ hashed (iteration (GenerateIDs (fst (GetMACAddress ([lo], None))) 0 0) sample_now)
     = put_le 8 (time.UnixNano sample_now).
Proof.
  apply (failed_lookup_hashes_timestamp_only ([lo], None) 0 0 sample_now).
  vm_compute. discriminate.
Defined.

(** ** The channel and the workers of a batch *)

Section BatchMore.

Variables (hw : list byte) (n : nat) (G : Z).

Lemma within_capacity_step (e : event) (w : world) :
  within_capacity w -> within_capacity (step hw n G e w).
Proof.
  unfold within_capacity. intros Hcap. destruct e as [|k now]; cbn [step].
  - unfold main_step.
    destruct (main w) as [|ids results r|ids results i|ids|p]; try exact Hcap.
    + destruct (Z.ltb_spec (128 * G) 0); cbn [chans]; [exact Hcap|].
      apply Forall_app. split; [exact Hcap|]. repeat constructor. cbn. lia.
    + destruct (r <? G); exact Hcap.
    + destruct (i <? n)%nat; [|exact Hcap].
      destruct (chans w !! results) as [[c [|v q]]|] eqn:Hch; try exact Hcap.
      assert (Hq : Z.of_nat (length q) <= c).
      { rewrite Forall_lookup in Hcap. specialize (Hcap _ _ Hch). cbn in Hcap. lia. }
      destruct (assign ids (Z.of_nat i) v); cbn [chans];
        (apply Forall_insert; [exact Hcap|exact Hq]).
  - unfold producer_step.
    destruct (producers w !! k) as [p|]; [|exact Hcap].
    destruct (pc p) as [|timestamp value]; [exact Hcap|].
    destruct (chans w !! resultChan p) as [ch|] eqn:Hch; [|exact Hcap].
    destruct (Z.ltb_spec (Z.of_nat (length (buf ch))) (cap ch)); [|exact Hcap].
    cbn [chans]. apply Forall_insert; [exact Hcap|].
    cbn. rewrite length_app. cbn. lia.
Qed.

Lemma within_capacity_run (schedule : list event) (w : world) :
  within_capacity w -> within_capacity (run hw n G schedule w).
Proof.
  revert w. induction schedule as [|e schedule IH]; intros w Hcap; cbn.
  - exact Hcap.
  - apply IH, within_capacity_step, Hcap.
Qed.

(** The caller has received at most [n] values. *)
Lemma length_recv_log (w : world) :
  1 <= G -> inv hw n G w -> (length (recv_log w) <= n)%nat.
Proof.
  intros HG Hinv. pose proof (inv_phase _ _ _ _ Hinv) as Hphase.
  unfold phase_ok in Hphase.
  destruct (main w).
  - destruct Hphase as (_ & _ & -> & _). cbn. lia.
  - destruct Hphase as (_ & _ & _ & _ & ->). cbn. lia.
  - destruct Hphase as (_ & _ & _ & Hi & Hlen & _). lia.
  - destruct Hphase as (_ & _ & Hlen & _). lia.
  - destruct Hphase as (_ & _ & Hneg). lia.
Qed.

(** Once the call has returned nothing the scheduler does changes what it
    returned or what the caller received. *)
Lemma run_cons (e : event) (schedule : list event) (w : world) :
  run hw n G (e :: schedule) w = run hw n G schedule (step hw n G e w).
Proof. reflexivity. Qed.

Lemma returned_run (more : list event) (w : world) (ids : list (list byte)) :
  main w = Return ids ->
  main (run hw n G more w) = Return ids
  /\ recv_log (run hw n G more w) = recv_log w.
Proof.
  revert w. induction more as [|e more IH]; intros w Hmain; [cbn; auto|].
  rewrite run_cons. destruct e as [|k now]; cbn [step].
  - unfold main_step. rewrite Hmain. apply IH, Hmain.
  - destruct (IH (producer_step k now w)) as [Hm Hr].
    + rewrite main_producer_step. exact Hmain.
    + rewrite Hm, Hr, recv_log_producer_step. auto.
Qed.

End BatchMore.

(** X14: the channel is a queue that loses nothing and repeats nothing: at every
    point of every schedule the values sent so far are the values received
    so far followed by the values waiting in the channel, in this order. *)
Theorem channel_is_fifo (hw : list byte) (n : nat) (CPUCount : Z) (schedule : list event) :
  let w := run hw n CPUCount schedule init in
  snd <$> send_log w = (snd <$> recv_log w) ++ queue w.
Proof. apply (inv_fifo _ _ _ _ (inv_reachable hw n CPUCount schedule)). Qed.

(** X15: the channel never holds more than its capacity: a producer whose send
    finds it full stays blocked.  So at most n + 128*W identifiers are ever
    sent, however long the producers are left running. *)
Theorem sends_are_bounded (hw : list byte) (n : nat) (CPUCount : Z) (schedule : list event) :
  1 <= CPUCount ->
  let w := run hw n CPUCount schedule init in
  within_capacity w
  /\ Z.of_nat (length (queue w)) <= 128 * CPUCount
  /\ Z.of_nat (length (send_log w)) <= Z.of_nat n + 128 * CPUCount.
Proof.
  intros HW w.
  assert (Hcap : within_capacity w).
  { apply within_capacity_run. constructor. }
  pose proof (inv_reachable hw n CPUCount schedule) as Hinv. fold w in Hinv.
  assert (Hq : Z.of_nat (length (queue w)) <= 128 * CPUCount).
  { pose proof (inv_chan _ _ _ _ Hinv) as Hchan. unfold chan_ok, queue in *.
    unfold within_capacity in Hcap.
    destruct (main w); try (rewrite Hchan; cbn; lia);
      destruct Hchan as [q Hq]; rewrite Hq in *; inversion Hcap; subst; cbn in *; lia. }
  split; [exact Hcap|]. split; [exact Hq|].
  pose proof (f_equal length (inv_fifo _ _ _ _ Hinv)) as Hlen.
  rewrite length_app, !length_fmap in Hlen.
  pose proof (length_recv_log hw n CPUCount w HW Hinv). lia.
Qed.

Lemma sends_are_bounded_witness :
  let w := run sample_mac 2 2 sample_schedule init in
  within_capacity w
  /\ Z.of_nat (length (queue w)) <= 128 * 2
  /\ Z.of_nat (length (send_log w)) <= Z.of_nat 2 + 128 * 2.
Proof.
  apply (sends_are_bounded sample_mac 2 2 sample_schedule). lia.
Defined.



(** X17: the producers outlive the call: after GenerateNIDs has returned, under
    whatever schedule follows, the value returned stays the same, the
    caller receives nothing more, and all W producers are still there on
    the same channel. *)
Theorem producers_outlive_the_call (hw : list byte) (n : nat) (CPUCount : Z)
    (schedule more : list event) (ids : list (list byte)) :
  GenerateNIDs hw n CPUCount schedule = Some ids ->
  GenerateNIDs hw n CPUCount (schedule ++ more) = Some ids
  /\ recv_log (run hw n CPUCount (schedule ++ more) init)
     = recv_log (run hw n CPUCount schedule init)
  /\ workers (run hw n CPUCount (schedule ++ more) init) = crew hw (Z.to_nat CPUCount)
  /\ length (producers (run hw n CPUCount (schedule ++ more) init)) = Z.to_nat CPUCount.
Proof.
  intros Hret. unfold GenerateNIDs in *.
  destruct (main (run hw n CPUCount schedule init)) as [| | |ids'|] eqn:Hmain;
    try discriminate.
  injection Hret as ->.
  destruct (returned_run hw n CPUCount more _ _ Hmain) as [Hm Hr].
  rewrite run_app, Hm. split; [reflexivity|]. split; [exact Hr|].
  pose proof (inv_phase _ _ _ _ (inv_run hw n CPUCount more _
                (inv_reachable hw n CPUCount schedule))) as Hphase.
  unfold phase_ok in Hphase. rewrite Hm in Hphase.
  destruct Hphase as (_ & Hw & _). split; [exact Hw|].
  pose proof (f_equal length Hw) as Hl. unfold workers in Hl.
  rewrite length_fmap, length_crew in Hl. exact Hl.
Qed.

Lemma producers_outlive_the_call_witness :
  GenerateNIDs sample_mac 2 2 (sample_schedule ++ [RunProducer 0 7; RunProducer 0 7])
    = Some [identifier sample_mac sample_now; identifier sample_mac sample_now]
  /\ recv_log (run sample_mac 2 2 (sample_schedule ++ [RunProducer 0 7; RunProducer 0 7]) init)
     = recv_log (run sample_mac 2 2 sample_schedule init)
  /\ workers (run sample_mac 2 2 (sample_schedule ++ [RunProducer 0 7; RunProducer 0 7]) init)
     = crew sample_mac (Z.to_nat 2)
  /\ length (producers (run sample_mac 2 2
               (sample_schedule ++ [RunProducer 0 7; RunProducer 0 7]) init))
     = Z.to_nat 2.
Proof.
  apply (producers_outlive_the_call sample_mac 2 2 sample_schedule
           [RunProducer 0 7; RunProducer 0 7]).
  vm_compute. reflexivity.
Defined.

(** ** The order and the uniqueness of a batch *)

Section Race.

Variables (hw : list byte) (n : nat) (G : Z).








End Race.



(** The batch of the sample schedule decodes. *)
Lemma GenerateNIDs_identifiers_decode_witness :
  Forall
    (fun id => exists t,
       is_int64 t /\ id = identifier sample_mac t /\ GetUnixNanoFromID id = Returns t)
    [identifier sample_mac sample_now; identifier sample_mac sample_now].
Proof.
  apply (GenerateNIDs_identifiers_decode sample_mac 2 2 sample_schedule).
  vm_compute. reflexivity.
Defined.

(** ** Generation order and creation-time order *)


